(** * xtensor: steppers, the odometer increment and the iterator adaptor

    A shallow embedding of [include/xtensor/xiterator.hpp] and the
    properties of its traversal engine.

    Conventions of the embedding:
    - [size_type] is an unsigned 64-bit integer: a [Z] in [0, 2^64) whose
      arithmetic is written with its wrap-around ([size_add], [size_sub],
      [size_mul]);
    - a [std::vector<size_type>] (shape, index, strides, backstrides) is a
      [list Z]; [v[i]] is the partial lookup [v !! i], and an access out of
      range (undefined behaviour in C++) makes the operation return [None];
    - a subiterator into linear storage is its position, a machine word;
      [it += k] and [it -= k] are word additions and subtractions;
    - a member function that mutates [*this] is a function to the new
      object, in [option] where the body can leave defined behaviour. *)

From Stdlib Require Import ZArith Lia List.
From stdpp Require Import base decidable option list numbers.

Local Open Scope Z_scope.

(** ** [size_type] arithmetic *)

Definition size_modulus : Z := 2 ^ 64.

Definition wrap (z : Z) : Z := z mod size_modulus.

Definition size_add (a b : Z) : Z := wrap (a + b).
Definition size_sub (a b : Z) : Z := wrap (a - b).
Definition size_mul (a b : Z) : Z := wrap (a * b).

(** The values a [size_type] object can hold. *)
Definition is_size (z : Z) : Prop := 0 ≤ z < size_modulus.

(** ** The stepper interface

    [increment_stepper] and [xiterator] are templates over a stepper type
    [S] offering [step], [reset], [to_end] and [operator==]. *)

Class Stepper (St : Type) := {
  step : Z → Z → St → option St;
  reset : Z → St → option St;
  to_end : St → St;
  equal : St → St → bool
}.

(** [operator==] of a stepper, under a name that the [equal] members of
    the classes below do not shadow. *)
Definition stepper_equal {St} `{Stepper St} : St → St → bool := equal.

(** ** increment_stepper

    [[
    size_type i = index.size();
    while(i != 0) {
        --i;
        if(++index[i] != shape[i]) { stepper.step(i); return; }
        else if(i != 0)            { index[i] = 0; stepper.reset(i); }
    }
    if(i == 0) stepper.to_end();
    ]]

    [increment_loop i] is the [while] loop entered with loop counter [i],
    followed by the final [if]; the loop is left by its condition only with
    [i == 0], so the final test always succeeds there. *)

Fixpoint increment_loop {St} `{Stepper St}
    (i : nat) (stepper : St) (index shape : list Z) : option (St * list Z) :=
  match i with
  | O => Some (to_end stepper, index)
  | S i' =>
      x ← index !! i';
      s ← shape !! i';
      let index := <[i' := size_add x 1]> index in
      if decide (size_add x 1 ≠ s) then
        stepper ← step (Z.of_nat i') 1 stepper;
        Some (stepper, index)
      else if decide (i' ≠ O) then
        let index := <[i' := 0]> index in
        stepper ← reset (Z.of_nat i') stepper;
        increment_loop i' stepper index shape
      else
        increment_loop i' stepper index shape
  end.

Definition increment_stepper {St} `{Stepper St}
    (stepper : St) (index shape : list Z) : option (St * list Z) :=
  increment_loop (length index) stepper index shape.

(** ** A stepper that records the calls made on it

    Instantiating the template with this stepper exposes the sequence of
    [step], [reset] and [to_end] calls one increment issues. *)

Inductive call : Type :=
  | Step (dim n : Z)
  | Reset (dim : Z)
  | ToEnd.

#[global] Instance call_eq_dec : EqDecision call.
Proof. solve_decision. Defined.

#[global] Instance call_log_stepper : Stepper (list call) := {|
  step dim n log := Some (log ++ [Step dim n]);
  reset dim log := Some (log ++ [Reset dim]);
  to_end log := log ++ [ToEnd];
  equal l1 l2 := bool_decide (l1 = l2)
|}.

(** Replaying recorded calls on an arbitrary stepper. *)
Definition run_call {St} `{Stepper St} (c : call) (st : St) : option St :=
  match c with
  | Step dim n => step dim n st
  | Reset dim => reset dim st
  | ToEnd => Some (to_end st)
  end.

Fixpoint run_calls {St} `{Stepper St} (cs : list call) (st : St) : option St :=
  match cs with
  | [] => Some st
  | c :: cs' => st' ← run_call c st; run_calls cs' st'
  end.

(** The calls and the new index of one increment. *)
Definition increment_calls (index shape : list Z) : option (list call * list Z) :=
  increment_stepper ([] : list call) index shape.

(** Dimension [x] of extent [s] carries when its incremented coordinate
    reaches the extent. *)
Definition carries (x s : Z) : Prop := size_add x 1 = s.

(** [reset] calls on the dimensions [lo + cnt - 1] down to [lo]. *)
Definition resets_down (lo cnt : nat) : list call :=
  (λ d : nat, Reset (Z.of_nat d)) <$> reverse (seq lo cnt).

(** ** xstepper: the strided stepper

    The container is an external collaborator; a stepper reads its address
    (for [p_c == rhs.p_c]), [strides()], [backstrides()], [end()] and the
    element an iterator position designates. *)

Module XStepper.

Record container (V : Type) := Container {
  addr : Z;
  strides : list Z;
  backstrides : list Z;
  end_ : Z;
  at_ : Z → option V
}.
Arguments Container {V}.
Arguments addr {V}.
Arguments strides {V}.
Arguments backstrides {V}.
Arguments end_ {V}.
Arguments at_ {V}.

Record t (V : Type) := mk {
  p_c : container V;
  m_it : Z;
  m_offset : Z
}.
Arguments mk {V}.
Arguments p_c {V}.
Arguments m_it {V}.
Arguments m_offset {V}.

Section Ops.
Context {V : Type}.

(** [reference operator*() const { return *m_it; }] *)
Definition deref (s : t V) : option V := at_ (p_c s) (m_it s).

(** [if(dim >= m_offset) m_it += n * p_c->strides()[dim - m_offset];]
    Under the guard the subtraction does not wrap. *)
Definition step (dim n : Z) (s : t V) : option (t V) :=
  if decide (m_offset s ≤ dim) then
    st ← strides (p_c s) !! Z.to_nat (dim - m_offset s);
    Some (mk (p_c s) (size_add (m_it s) (size_mul n st)) (m_offset s))
  else Some s.

(** [if(dim >= m_offset) m_it -= n * p_c->strides()[dim - m_offset];] *)
Definition step_back (dim n : Z) (s : t V) : option (t V) :=
  if decide (m_offset s ≤ dim) then
    st ← strides (p_c s) !! Z.to_nat (dim - m_offset s);
    Some (mk (p_c s) (size_sub (m_it s) (size_mul n st)) (m_offset s))
  else Some s.

(** [if(dim >= m_offset) m_it -= p_c->backstrides()[dim - m_offset];] *)
Definition reset (dim : Z) (s : t V) : option (t V) :=
  if decide (m_offset s ≤ dim) then
    bs ← backstrides (p_c s) !! Z.to_nat (dim - m_offset s);
    Some (mk (p_c s) (size_sub (m_it s) bs) (m_offset s))
  else Some s.

(** [m_it = p_c->end();] *)
Definition to_end (s : t V) : t V :=
  mk (p_c s) (end_ (p_c s)) (m_offset s).

(** [p_c == rhs.p_c && m_it == rhs.m_it && m_offset == rhs.m_offset] *)
Definition equal (a b : t V) : bool :=
  bool_decide (addr (p_c a) = addr (p_c b))
  && bool_decide (m_it a = m_it b)
  && bool_decide (m_offset a = m_offset b).

(** [operator!=]: [return !(lhs.equal(rhs));] ([operator==] is [equal]). *)
Definition not_equal (a b : t V) : bool := negb (equal a b).
End Ops.

End XStepper.

#[global] Instance xstepper_stepper {V} : Stepper (XStepper.t V) := {|
  step := XStepper.step;
  reset := XStepper.reset;
  to_end := XStepper.to_end;
  equal := XStepper.equal
|}.

(** ** xindexed_stepper: the index-based stepper

    The expression is an external collaborator offering [shape()] and
    [element(first, last)]. The [is_const] template flag only selects the
    reference type and has no counterpart here. *)

Module XIndexedStepper.

Record expression (V : Type) := Expression {
  addr : Z;
  shape : list Z;
  element : list Z → option V
}.
Arguments Expression {V}.
Arguments addr {V}.
Arguments shape {V}.
Arguments element {V}.

Record t (V : Type) := mk {
  p_e : expression V;
  m_index : list Z;
  m_offset : Z
}.
Arguments mk {V}.
Arguments p_e {V}.
Arguments m_index {V}.
Arguments m_offset {V}.

Section Ops.
Context {V : Type}.

(** [m_index = p_e->shape();] *)
Definition to_end (s : t V) : t V :=
  mk (p_e s) (shape (p_e s)) (m_offset s).

(** The constructor: [m_index] is [e->shape().size()] zeros, and
    [if (end) to_end();]. *)
Definition make (e : expression V) (offset : Z) (end_flag : bool) : t V :=
  let s := mk e (replicate (length (shape e)) 0) offset in
  if end_flag then to_end s else s.

(** [return p_e->element(m_index.cbegin(), m_index.cend());] *)
Definition deref (s : t V) : option V := element (p_e s) (m_index s).

(** [if (dim >= m_offset) m_index[dim - m_offset] += n;] *)
Definition step (dim n : Z) (s : t V) : option (t V) :=
  if decide (m_offset s ≤ dim) then
    let k := Z.to_nat (dim - m_offset s) in
    x ← m_index s !! k;
    Some (mk (p_e s) (<[k := size_add x n]> (m_index s)) (m_offset s))
  else Some s.

(** [if (dim >= m_offset) m_index[dim - m_offset] -= n;] *)
Definition step_back (dim n : Z) (s : t V) : option (t V) :=
  if decide (m_offset s ≤ dim) then
    let k := Z.to_nat (dim - m_offset s) in
    x ← m_index s !! k;
    Some (mk (p_e s) (<[k := size_sub x n]> (m_index s)) (m_offset s))
  else Some s.

(** [if (dim >= m_offset) m_index[dim - m_offset] = 0;] *)
Definition reset (dim : Z) (s : t V) : option (t V) :=
  if decide (m_offset s ≤ dim) then
    let k := Z.to_nat (dim - m_offset s) in
    _ ← m_index s !! k;
    Some (mk (p_e s) (<[k := 0]> (m_index s)) (m_offset s))
  else Some s.

(** [p_e == rhs.p_e && m_index == rhs.m_index && m_offset == rhs.m_offset] *)
Definition equal (a b : t V) : bool :=
  bool_decide (addr (p_e a) = addr (p_e b))
  && bool_decide (m_index a = m_index b)
  && bool_decide (m_offset a = m_offset b).

(** [operator!=]: [return !lhs.equal(rhs);] ([operator==] is [equal]). *)
Definition not_equal (a b : t V) : bool := negb (equal a b).
End Ops.

End XIndexedStepper.

#[global] Instance xindexed_stepper_stepper {V} : Stepper (XIndexedStepper.t V) := {|
  step := XIndexedStepper.step;
  reset := XIndexedStepper.reset;
  to_end := XIndexedStepper.to_end;
  equal := XIndexedStepper.equal
|}.

(** ** xiterator: the iterator adaptor

    [shape_storage] holds the shape by value or through a pointer; both
    variants only offer [shape()], the shape itself here. *)

Module XIterator.

Record t (St : Type) := mk {
  m_it : St;
  m_index : list Z;
  shape : list Z
}.
Arguments mk {St}.
Arguments m_it {St}.
Arguments m_index {St}.
Arguments shape {St}.

Section Ops.
Context {St : Type} `{Stepper St}.

(** [xiterator(It it, shape_param_type shape)]: the index is
    [shape().size()] zeros. *)
Definition make (it : St) (sh : list Z) : t St :=
  mk it (replicate (length sh) 0) sh.

(** [operator++()]:
    [increment_stepper(m_it, m_index, this->shape()); return *this;] *)
Definition incr (i : t St) : option (t St) :=
  '(st, idx) ← increment_stepper (m_it i) (m_index i) (shape i);
  Some (mk st idx (shape i)).

(** [operator++(int)]: the copy made before the increment, and the
    incremented iterator. *)
Definition post_incr (i : t St) : option (t St * t St) :=
  i' ← incr i; Some (i, i').

(** [operator*()]: [return *m_it;], for the dereference [deref_it] of the
    subiterator. [operator->()] is the address of the same element. *)
Definition deref {V} (deref_it : St → option V) (i : t St) : option V :=
  deref_it (m_it i).

(** [return m_it == rhs.m_it && this->shape() == rhs.shape();] *)
Definition equal (a b : t St) : bool :=
  stepper_equal (m_it a) (m_it b) && bool_decide (shape a = shape b).

(** [operator!=]: [return !(lhs.equal(rhs));] ([operator==] is [equal]). *)
Definition not_equal (a b : t St) : bool := negb (equal a b).

(** [n] successive pre-increments. *)
Fixpoint incr_n (n : nat) (i : t St) : option (t St) :=
  match n with
  | O => Some i
  | S n' => i' ← incr i; incr_n n' i'
  end.

(** The loop [for(; !(it == last); ++it)] whose body dereferences [it]:
    the iterators at which the body runs, in order. [fuel] bounds the
    number of tests of the loop condition. *)
Fixpoint traverse (fuel : nat) (it last : t St) : option (list (t St)) :=
  match fuel with
  | O => None
  | S fuel' =>
      if equal it last then Some []
      else it' ← incr it; rest ← traverse fuel' it' last; Some (it :: rest)
  end.
End Ops.

End XIterator.

(** ** Notions used to state the properties *)

(** Equality of words up to wrap-around. *)
Definition eqw (a b : Z) : Prop := wrap a = wrap b.

(** [index[i] < shape[i]] for every dimension: a valid (non-end) position. *)
Definition valid (index shape : list Z) : Prop :=
  Forall2 (λ x s, 0 ≤ x < s) index shape.

(** The number of elements of a shape. *)
Definition prod (shape : list Z) : Z := foldr Z.mul 1 shape.

(** The rank of an index in row-major order: the last dimension counts
    units, each dimension in front of it counts whole blocks. *)
Fixpoint lin (index shape : list Z) : Z :=
  match index, shape with
  | x :: index', _ :: shape' => x * prod shape' + lin index' shape'
  | _, _ => 0
  end.

(** The odometer successor as the specification words it: the last
    dimension is the fastest, the carry propagates outward, and every
    carried dimension is reset to 0. The boolean tells whether the carry
    leaves dimension 0. *)
Fixpoint odometer_succ (index shape : list Z) : list Z * bool :=
  match index, shape with
  | x :: index', s :: shape' =>
      let '(rest, carry) := odometer_succ index' shape' in
      if carry then
        if decide (size_add x 1 = s) then (0 :: rest, true)
        else (size_add x 1 :: rest, false)
      else (x :: rest, false)
  | _, _ => ([], true)
  end.

(** The storage offset of an index: the sum of [index[i] * strides[i]]. *)
Fixpoint dot (index strides : list Z) : Z :=
  match index, strides with
  | x :: index', st :: strides' => x * st + dot index' strides'
  | _, _ => 0
  end.

(** [k] successive calls of a member function. *)
Fixpoint repeat_op {A} (f : A → option A) (k : nat) (a : A) : option A :=
  match k with
  | O => Some a
  | S k' => a' ← f a; repeat_op f k' a'
  end.

(** The indexed stepper when the iterator is at [index]: with
    rank-alignment offset [o], the index of the stepper is the iteration
    index without its first [o] coordinates. *)
Definition indexed_pos {V} (e : XIndexedStepper.expression V) (o : nat)
    (index : list Z) : XIndexedStepper.t V :=
  XIndexedStepper.mk e (drop o index) (Z.of_nat o).

(** The container is laid out for the iteration shape [shape] at offset
    [o] when it has a stride and a backstride for each of the dimensions
    [o, o+1, ...] of the shape, every backstride being the way back from
    the last coordinate: [backstrides[j] = strides[j] * (shape[o+j] - 1)]. *)
Definition strided_layout {V} (c : XStepper.container V) (o : nat)
    (shape : list Z) : Prop :=
  Forall3 (λ st bs s, bs = size_mul st (size_sub s 1))
    (XStepper.strides c) (XStepper.backstrides c) (drop o shape).

(** The strided stepper when the iterator is at [index], for a traversal
    that begins at position [b]. *)
Definition strided_pos {V} (c : XStepper.container V) (b : Z) (o : nat)
    (index : list Z) : XStepper.t V :=
  XStepper.mk c (wrap (b + dot (drop o index) (XStepper.strides c))) (Z.of_nat o).

(** The iterator at [index] when [pos] gives the state of its stepper, and
    the end-constructed iterator for the end state [endst]. *)
Definition at_index {St} (shape : list Z) (pos : list Z → St)
    (index : list Z) : XIterator.t St :=
  XIterator.mk (pos index) index shape.

Definition last_iterator {St} (shape : list Z) (endst : St) : XIterator.t St :=
  XIterator.make endst shape.

(** * Lemmas on the embedding *)

(** ** Facts on the loop *)

Lemma increment_loop_log i : ∀ (log : list call) index shape,
  increment_loop i log index shape =
  (λ '(cs, index'), (log ++ cs, index')) <$> increment_loop i [] index shape.
Proof.
  induction i as [|i IH]; intros log index shape; simpl.
  - done.
  - destruct (index !! i) as [x|]; simpl; [|done].
    destruct (shape !! i) as [s|]; simpl; [|done].
    repeat case_decide; simpl; try done.
    rewrite (IH (log ++ _)), (IH [Reset _]).
    destruct (increment_loop i [] _ shape) as [[cs idx]|]; simpl; [|done].
    by rewrite <- app_assoc.
Qed.

Lemma increment_loop_replay {St} `{Stepper St} i : ∀ (st : St) index shape,
  increment_loop i st index shape =
  '(cs, index') ← increment_loop i ([] : list call) index shape;
  st' ← run_calls cs st;
  Some (st', index').
Proof.
  induction i as [|i IH]; intros st index shape; simpl.
  - done.
  - destruct (index !! i) as [x|]; simpl; [|done].
    destruct (shape !! i) as [s|]; simpl; [|done].
    repeat case_decide; simpl.
    + by destruct (step _ 1 st).
    + rewrite increment_loop_log.
      destruct (reset _ st) as [st1|] eqn:Hr; simpl.
      * rewrite IH.
        destruct (increment_loop i [] _ shape) as [[cs idx]|]; simpl; [|done].
        by rewrite Hr.
      * destruct (increment_loop i [] _ shape) as [[cs idx]|]; simpl; [|done].
        by rewrite Hr.
    + apply IH.
Qed.

Lemma resets_down_S lo cnt :
  resets_down lo (S cnt) = Reset (Z.of_nat (lo + cnt)) :: resets_down lo cnt.
Proof.
  unfold resets_down. rewrite seq_S, reverse_snoc. done.
Qed.

Lemma lookup_middle_Z (l1 l2 : list Z) (x : Z) :
  (l1 ++ x :: l2) !! length l1 = Some x.
Proof. by apply list_lookup_middle. Qed.

Lemma insert_middle_Z (l1 l2 : list Z) (x y : Z) :
  <[length l1 := y]> (l1 ++ x :: l2) = l1 ++ y :: l2.
Proof.
  replace (length l1) with (length l1 + 0)%nat by lia.
  by rewrite insert_app_r.
Qed.

(** The carried suffix: every dimension of [suf] reaches its extent, is set
    back to 0 and receives a [reset]; the loop goes on with the dimensions
    in front of it. The dimensions of [suf] are not dimension 0. *)
Lemma increment_loop_carry suf : ∀ ssuf,
  Forall2 carries suf ssuf →
  ∀ (log : list call) front sfront tl stl,
  length front = length sfront →
  (0 < length front)%nat →
  increment_loop (length front + length suf) log
    (front ++ suf ++ tl) (sfront ++ ssuf ++ stl) =
  increment_loop (length front)
    (log ++ resets_down (length front) (length suf))
    (front ++ replicate (length suf) 0 ++ tl) (sfront ++ ssuf ++ stl).
Proof.
  induction suf as [|y suf IH] using rev_ind; intros ssuf Hc log front sfront tl stl Hlen Hpos.
  - apply Forall2_nil_inv_l in Hc as ->. simpl.
    by rewrite Nat.add_0_r, app_nil_r.
  - apply Forall2_app_inv_l in Hc as (ssuf' & st & Hc & Hy & ->).
    apply Forall2_cons_inv_l in Hy as (t & ? & Hy & Hnil & ->).
    apply Forall2_nil_inv_l in Hnil as ->.
    pose proof (Forall2_length Hc) as Hl.
    rewrite length_app. simpl.
    replace (length front + (length suf + 1))%nat
      with (S (length front + length suf)) by lia.
    cbn [increment_loop].
    assert (Hi : (front ++ (suf ++ [y]) ++ tl) = (front ++ suf) ++ y :: tl)
      by (by rewrite <- !app_assoc).
    assert (Hs : (sfront ++ (ssuf' ++ [t]) ++ stl) = (sfront ++ ssuf') ++ t :: stl)
      by (by rewrite <- !app_assoc).
    assert (Hn : (length front + length suf)%nat = length (front ++ suf))
      by (by rewrite length_app).
    assert (Hn' : (length front + length suf)%nat = length (sfront ++ ssuf'))
      by (rewrite length_app; lia).
    rewrite Hi at 1. rewrite Hn at 1. rewrite lookup_middle_Z. simpl.
    rewrite Hs at 1. rewrite Hn' at 1. rewrite lookup_middle_Z. simpl.
    red in Hy.
    destruct (decide (size_add y 1 ≠ t)) as [?|_]; [done|].
    destruct (decide ((length front + length suf)%nat ≠ 0%nat)) as [_|?]; [|lia].
    simpl.
    assert (Hins : <[(length front + length suf)%nat:=0]>
              (<[(length front + length suf)%nat:=size_add y 1]>
                 (front ++ (suf ++ [y]) ++ tl)) = front ++ suf ++ 0 :: tl).
    { rewrite Hi, Hn, !insert_middle_Z. by rewrite <- app_assoc. }
    rewrite Hins, Hs, <- (app_assoc sfront ssuf').
    rewrite (IH ssuf' Hc _ front sfront (0 :: tl) (t :: stl) Hlen Hpos).
    replace (length suf + 1)%nat with (S (length suf)) by lia.
    rewrite resets_down_S, <- app_assoc. simpl.
    change (0 :: replicate (length suf) 0 ++ tl)
      with (replicate (S (length suf)) 0 ++ tl).
    by rewrite replicate_S_end, <- app_assoc.
Qed.

(** One increment when dimension [length pre] is the last that does not
    carry. *)
Lemma increment_calls_step pre x suf spre s ssuf :
  length pre = length spre →
  Forall2 carries suf ssuf →
  ¬ carries x s →
  increment_calls (pre ++ x :: suf) (spre ++ s :: ssuf) =
  Some (resets_down (S (length pre)) (length suf)
          ++ [Step (Z.of_nat (length pre)) 1],
        pre ++ size_add x 1 :: replicate (length suf) 0).
Proof.
  intros Hlen Hc Hx. unfold increment_calls, increment_stepper.
  pose proof (increment_loop_carry suf ssuf Hc [] (pre ++ [x]) (spre ++ [s]) [] []) as HL.
  rewrite !length_app in HL. simpl in HL.
  rewrite !app_nil_r, <- !app_assoc in HL. simpl in HL.
  rewrite length_app. simpl.
  replace (length pre + S (length suf))%nat with (length pre + 1 + length suf)%nat by lia.
  rewrite HL by lia. clear HL.
  replace (length pre + 1)%nat with (S (length pre)) by lia.
  cbn [increment_loop].
  rewrite lookup_middle_Z. simpl.
  rewrite Hlen at 1. rewrite lookup_middle_Z. simpl.
  destruct (decide (size_add x 1 ≠ s)) as [_|Hn].
  - simpl. by rewrite insert_middle_Z.
  - destruct Hx. red. by destruct (decide (size_add x 1 = s)).
Qed.

(** One increment when every dimension carries: the increment carries past
    dimension 0. *)
Lemma increment_calls_end index shape :
  Forall2 carries index shape →
  increment_calls index shape =
  Some (resets_down 1 (length index - 1) ++ [ToEnd],
        match index with
        | [] => []
        | x :: rest => size_add x 1 :: replicate (length rest) 0
        end).
Proof.
  intros Hc. unfold increment_calls, increment_stepper.
  destruct Hc as [|x s suf ssuf Hx Hc]; [done|].
  pose proof (increment_loop_carry suf ssuf Hc [] [x] [s] [] []) as HL.
  rewrite !app_nil_r in HL. simpl in HL. simpl.
  rewrite HL by lia. clear HL.
  cbn [increment_loop]. simpl.
  destruct (decide (size_add x 1 ≠ s)) as [?|_]; [done|].
  simpl. by rewrite Nat.sub_0_r.
Qed.

Example increment_calls_23_a :
  increment_calls [0; 2] [2; 3] = Some ([Reset 1; Step 0 1], [1; 0]).
Proof. reflexivity. Qed.

Example increment_calls_23_b :
  increment_calls [1; 2] [2; 3] = Some ([Reset 1; ToEnd], [2; 0]).
Proof. reflexivity. Qed.

(** Every index of the rank of the shape is in one of the two cases. *)
Lemma carry_split index : ∀ shape,
  length index = length shape →
  Forall2 carries index shape ∨
  ∃ pre x suf spre s ssuf,
    index = pre ++ x :: suf ∧ shape = spre ++ s :: ssuf ∧
    length pre = length spre ∧ Forall2 carries suf ssuf ∧ ¬ carries x s.
Proof.
  induction index as [|x index IH]; intros [|s shape] Hlen; simplify_eq/=.
  - left. constructor.
  - destruct (IH shape) as [Hall|(pre & y & suf & spre & t & ssuf & -> & -> & ? & ? & ?)];
      [done| |].
    + destruct (decide (size_add x 1 = s)) as [Hx|Hx].
      * left. by constructor.
      * right. exists [], x, index, [], s, shape. done.
    + right. exists (x :: pre), y, suf, (s :: spre), t, ssuf.
      simpl. repeat split; auto with lia.
Qed.

(** ** Valid positions and their row-major rank *)

Lemma wrap_small z : is_size z → wrap z = z.
Proof. intros Hz. apply Z.mod_small. exact Hz. Qed.

Lemma wrap_is_size z : is_size (wrap z).
Proof. apply Z.mod_pos_bound. reflexivity. Qed.

Lemma valid_length index shape : valid index shape → length index = length shape.
Proof. apply Forall2_length. Qed.

Lemma lin_bounds index shape :
  valid index shape → 0 ≤ lin index shape < prod shape.
Proof.
  induction 1 as [|x s index shape Hx Hv IH]; simpl.
  - unfold prod. simpl. lia.
  - change (prod (s :: shape)) with (s * prod shape). nia.
Qed.

Lemma valid_carries_iff x s :
  is_size s → 0 ≤ x < s → carries x s ↔ x + 1 = s.
Proof.
  intros Hs Hx. unfold carries, size_add.
  rewrite wrap_small; [done|]. unfold is_size in *. lia.
Qed.

(** When every dimension carries, the index is the last of the shape. *)
Lemma lin_last index shape :
  valid index shape → Forall is_size shape → Forall2 carries index shape →
  lin index shape = prod shape - 1.
Proof.
  induction 1 as [|x s index shape Hx Hv IH]; intros Hs Hc.
  - done.
  - apply Forall_cons_1 in Hs as [Hs Hss].
    apply Forall2_cons_1 in Hc as [Hc Hcc].
    apply valid_carries_iff in Hc; [|done..].
    simpl. change (prod (s :: shape)) with (s * prod shape).
    rewrite IH by done. nia.
Qed.

Lemma lin_zeros n shape : lin (replicate n 0) shape = 0.
Proof.
  revert shape. induction n as [|n IH]; intros [|s shape]; simpl; auto.
  rewrite IH. lia.
Qed.

Lemma lin_app pre : ∀ spre index shape,
  length pre = length spre →
  lin (pre ++ index) (spre ++ shape) = lin pre spre * prod shape + lin index shape.
Proof.
  induction pre as [|x pre IH]; intros [|s spre] index shape Hlen; simplify_eq/=.
  - lia.
  - rewrite IH by done.
    assert (Hp : prod (spre ++ shape) = prod spre * prod shape).
    { clear. induction spre as [|a spre IH]; unfold prod in *; simpl; [lia|].
      rewrite IH. lia. }
    rewrite Hp. lia.
Qed.

Lemma valid_zeros shape :
  Forall (λ s, 0 < s) shape → valid (replicate (length shape) 0) shape.
Proof. induction 1; simpl; constructor; auto with lia. Qed.

(** The index after an increment that does not carry past dimension 0 is
    valid and is the next one in row-major order. *)
Lemma step_valid_lin pre x suf spre s ssuf :
  let index := pre ++ x :: suf in
  let shape := spre ++ s :: ssuf in
  let index' := pre ++ size_add x 1 :: replicate (length suf) 0 in
  length pre = length spre →
  valid index shape → Forall is_size shape →
  Forall2 carries suf ssuf → ¬ carries x s →
  valid index' shape ∧ lin index' shape = lin index shape + 1.
Proof.
  intros index shape index' Hlen Hv Hs Hc Hx. subst index shape index'.
  apply Forall2_app_inv in Hv as [Hvp Hv]; [|done].
  apply Forall2_cons_1 in Hv as [Hvx Hv].
  apply Forall_app in Hs as [Hsp Hs].
  apply Forall_cons_1 in Hs as [Hsx Hs].
  assert (Hx1 : x + 1 ≠ s) by (by rewrite <- valid_carries_iff).
  assert (Hw : size_add x 1 = x + 1).
  { unfold size_add. apply wrap_small. unfold is_size in *. lia. }
  rewrite Hw. split.
  - apply Forall2_app; [done|]. constructor; [lia|].
    rewrite (Forall2_length Hc).
    apply valid_zeros.
    clear -Hv. induction Hv; constructor; auto with lia.
  - rewrite !lin_app by done. simpl.
    rewrite lin_zeros, (lin_last suf ssuf) by done. lia.
Qed.

(** ** A complete traversal, for any stepper that follows the index

    [pos index] is the state of the stepper when the iterator is at the
    valid index [index], [endst] its state after [to_end]. *)

Section Traversal.
Context {St : Type} `{Stepper St}.
Variable shape : list Z.
Variable pos : list Z → St.
Variable endst : St.

Hypothesis shape_size : Forall is_size shape.

Local Abbreviation at_index := (at_index shape pos).
Local Abbreviation last_iterator := (last_iterator shape endst).

(** [step(i)] follows the increment of coordinate [i]. *)
Hypothesis follow_step : ∀ index (i : nat) x s,
  index !! i = Some x → shape !! i = Some s →
  step (Z.of_nat i) 1 (pos index) = Some (pos (<[i := size_add x 1]> index)).

(** [reset(i)] follows the return of a carried coordinate [i] to 0. *)
Hypothesis follow_reset : ∀ index (i : nat) x s,
  index !! i = Some x → shape !! i = Some s → carries x s →
  reset (Z.of_nat i) (pos index) = Some (pos (<[i := 0]> index)).

Hypothesis follow_to_end : ∀ index, to_end (pos index) = endst.

Lemma follow_resets suf : ∀ ssuf front sfront tl stl,
  shape = sfront ++ ssuf ++ stl →
  length front = length sfront →
  Forall2 carries suf ssuf →
  run_calls (resets_down (length front) (length suf)) (pos (front ++ suf ++ tl))
  = Some (pos (front ++ replicate (length suf) 0 ++ tl)).
Proof.
  induction suf as [|y suf IH] using rev_ind;
    intros ssuf front sfront tl stl Hsh Hlen Hc.
  - done.
  - apply Forall2_app_inv_l in Hc as (ssuf' & st & Hc & Hy & ->).
    apply Forall2_cons_inv_l in Hy as (t & ? & Hy & Hnil & ->).
    apply Forall2_nil_inv_l in Hnil as ->.
    pose proof (Forall2_length Hc) as Hl.
    rewrite length_app. simpl.
    replace (length suf + 1)%nat with (S (length suf)) by lia.
    rewrite resets_down_S. cbn [run_calls run_call].
    assert (Hi : front ++ (suf ++ [y]) ++ tl = (front ++ suf) ++ y :: tl)
      by (by rewrite <- !app_assoc).
    assert (Hs : shape = (sfront ++ ssuf') ++ t :: stl)
      by (by rewrite Hsh, <- !app_assoc).
    assert (Hn : (length front + length suf)%nat = length (front ++ suf))
      by (by rewrite length_app).
    assert (Hn' : (length front + length suf)%nat = length (sfront ++ ssuf'))
      by (rewrite length_app; lia).
    rewrite (follow_reset _ _ y t); [|by rewrite Hi, Hn, lookup_middle_Z
                                      |by rewrite Hs, Hn', lookup_middle_Z|done].
    simpl. rewrite Hi, Hn, insert_middle_Z, <- app_assoc.
    rewrite (IH ssuf' front sfront (0 :: tl) (t :: stl)); [|by rewrite Hs, <- app_assoc|done..].
    change (0 :: replicate (length suf) 0 ++ tl)
      with (replicate (S (length suf)) 0 ++ tl).
    by rewrite replicate_S_end, <- app_assoc.
Qed.

Lemma run_calls_app cs1 cs2 (st : St) :
  run_calls (cs1 ++ cs2) st = st' ← run_calls cs1 st; run_calls cs2 st'.
Proof.
  revert st. induction cs1 as [|c cs1 IH]; intros st; simpl; [done|].
  destruct (run_call c st); simpl; [apply IH|done].
Qed.

Lemma pos_step pre x suf spre s ssuf :
  shape = spre ++ s :: ssuf →
  length pre = length spre →
  Forall2 carries suf ssuf →
  run_calls (resets_down (S (length pre)) (length suf)
               ++ [Step (Z.of_nat (length pre)) 1]) (pos (pre ++ x :: suf))
  = Some (pos (pre ++ size_add x 1 :: replicate (length suf) 0)).
Proof.
  intros Hsh Hlen Hc. rewrite run_calls_app.
  pose proof (follow_resets suf ssuf (pre ++ [x]) (spre ++ [s]) [] []) as HR.
  rewrite !length_app, !app_nil_r, <- !app_assoc in HR. simpl in HR.
  replace (length pre + 1)%nat with (S (length pre)) in HR by lia.
  rewrite HR by (done || lia). simpl.
  rewrite (follow_step _ _ x s);
    [|apply lookup_middle_Z|by rewrite Hsh, Hlen, lookup_middle_Z].
  by rewrite insert_middle_Z.
Qed.

Lemma pos_end index :
  Forall2 carries index shape →
  run_calls (resets_down 1 (length index - 1) ++ [ToEnd]) (pos index)
  = Some endst.
Proof.
  intros Hc. rewrite run_calls_app.
  inversion Hc as [Hi Hs|x s suf ssuf Hx Hcc Hi Hs]; simpl.
  - by rewrite follow_to_end.
  - pose proof (follow_resets suf ssuf [x] [s] [] []) as HR.
    rewrite !app_nil_r in HR. simpl in HR.
    rewrite Nat.sub_0_r, HR by done. simpl.
    by rewrite follow_to_end.
Qed.

Hypothesis pos_not_end : ∀ index,
  valid index shape → stepper_equal (pos index) endst = false.

Hypothesis end_equal : stepper_equal endst endst = true.

Lemma at_index_not_last index :
  valid index shape → XIterator.equal (at_index index) last_iterator = false.
Proof.
  intros Hv. unfold XIterator.equal. simpl. by rewrite pos_not_end.
Qed.

Lemma ended_is_last index :
  XIterator.equal (XIterator.mk endst index shape) last_iterator = true.
Proof.
  unfold XIterator.equal. simpl. rewrite end_equal. simpl.
  by apply bool_decide_eq_true.
Qed.

(** One increment from a valid index: either the next valid index, or the
    end when the index was the last one. *)
Lemma incr_at_index index :
  valid index shape →
  (∃ index', XIterator.incr (at_index index) = Some (at_index index') ∧
      valid index' shape ∧ lin index' shape = lin index shape + 1) ∨
  (∃ index', XIterator.incr (at_index index)
               = Some (XIterator.mk endst index' shape) ∧
      lin index shape + 1 = prod shape).
Proof.
  intros Hv. unfold XIterator.incr, increment_stepper. simpl.
  rewrite increment_loop_replay.
  change (increment_loop (length index) [] index shape)
    with (increment_calls index shape).
  destruct (carry_split index shape (valid_length _ _ Hv))
    as [Hall|(pre & x & suf & spre & s & ssuf & -> & Hsh & Hlen & Hc & Hx)].
  - right. rewrite (increment_calls_end _ _ Hall). simpl.
    rewrite (pos_end _ Hall). simpl. eexists. split; [done|].
    rewrite (lin_last _ _ Hv shape_size Hall). lia.
  - left.
    pose proof (increment_calls_step _ _ _ _ _ _ Hlen Hc Hx) as Hcalls.
    rewrite <- Hsh in Hcalls. rewrite Hcalls. simpl.
    rewrite (pos_step _ _ _ _ _ _ Hsh Hlen Hc). simpl.
    eexists. split; [done|].
    pose proof shape_size as Hsz. rewrite Hsh in Hv, Hsz |- *.
    by apply step_valid_lin.
Qed.

(** The traversal from a valid index dereferences at each of the
    remaining indices, given enough fuel. *)
Lemma traverse_at_index fuel : ∀ index,
  valid index shape →
  (Z.to_nat (prod shape - lin index shape) < fuel)%nat →
  ∃ its, XIterator.traverse fuel (at_index index) last_iterator = Some its ∧
         Z.of_nat (length its) = prod shape - lin index shape.
Proof.
  induction fuel as [|fuel IH]; intros index Hv Hfuel; [lia|].
  pose proof (lin_bounds _ _ Hv) as Hb.
  cbn [XIterator.traverse]. rewrite at_index_not_last by done.
  destruct (incr_at_index index Hv)
    as [(index' & -> & Hv' & Hl)|(index' & -> & Hl)]; simpl.
  - destruct (IH index' Hv') as (its & -> & Hlen); [lia|]. simpl.
    eexists. split; [done|]. simpl length. lia.
  - destruct fuel as [|fuel]; [lia|]. simpl. rewrite ended_is_last. simpl.
    eexists. split; [done|]. simpl. lia.
Qed.

(** Positions at distinct valid indices are told apart, and so is the
    end from any of them: then an increment is seen by the comparison. *)
Hypothesis pos_distinct : ∀ i1 i2,
  valid i1 shape → valid i2 shape → i1 ≠ i2 →
  stepper_equal (pos i1) (pos i2) = false.

Hypothesis end_not_pos : ∀ index,
  valid index shape → stepper_equal endst (pos index) = false.

Lemma incr_breaks_equality index :
  valid index shape →
  ∃ it, XIterator.incr (at_index index) = Some it ∧
        XIterator.equal it (at_index index) = false.
Proof.
  intros Hv.
  destruct (incr_at_index index Hv)
    as [(index' & -> & Hv' & Hl)|(index' & -> & Hl)].
  - eexists. split; [done|]. unfold XIterator.equal. simpl.
    rewrite pos_distinct; [done..|]. intros ->. lia.
  - eexists. split; [done|]. unfold XIterator.equal. simpl.
    by rewrite end_not_pos.
Qed.

(** After [k] increments from the first index, for [k] below the number
    of elements, the iterator is at the valid index of rank [k], which is
    not the end. *)
Lemma incr_n_at_rank k : ∀ index,
  valid index shape →
  lin index shape + Z.of_nat k < prod shape →
  ∃ index', XIterator.incr_n k (at_index index) = Some (at_index index') ∧
            valid index' shape ∧
            lin index' shape = lin index shape + Z.of_nat k.
Proof.
  induction k as [|k IH]; intros index Hv Hk; simpl.
  - exists index. split; [done|]. split; [done|lia].
  - destruct (incr_at_index index Hv)
      as [(index' & -> & Hv' & Hl)|(it & _ & Hl)]; [|lia]. simpl.
    destruct (IH index' Hv') as (index'' & -> & ? & ?); [lia|].
    exists index''. split; [done|]. split; [done|lia].
Qed.
End Traversal.

(** ** The indexed stepper follows the index

    With rank-alignment offset [o], the index of the stepper is the
    iteration index without its first [o] coordinates. *)

Lemma indexed_follow_step {V} (e : XIndexedStepper.expression V) o index (i : nat) x :
  index !! i = Some x →
  step (Z.of_nat i) 1 (indexed_pos e o index)
  = Some (indexed_pos e o (<[i := size_add x 1]> index)).
Proof.
  intros Hx. unfold indexed_pos. simpl. unfold XIndexedStepper.step. simpl.
  destruct (decide (Z.of_nat o ≤ Z.of_nat i)) as [Hle|Hgt].
  - replace (Z.to_nat (Z.of_nat i - Z.of_nat o)) with (i - o)%nat by lia.
    rewrite lookup_drop. replace (o + (i - o))%nat with i by lia.
    rewrite Hx. simpl. rewrite drop_insert_ge by lia. done.
  - rewrite drop_insert_lt by lia. done.
Qed.

Lemma indexed_follow_reset {V} (e : XIndexedStepper.expression V) o index (i : nat) x :
  index !! i = Some x →
  reset (Z.of_nat i) (indexed_pos e o index)
  = Some (indexed_pos e o (<[i := 0]> index)).
Proof.
  intros Hx. unfold indexed_pos. simpl. unfold XIndexedStepper.reset. simpl.
  destruct (decide (Z.of_nat o ≤ Z.of_nat i)) as [Hle|Hgt].
  - replace (Z.to_nat (Z.of_nat i - Z.of_nat o)) with (i - o)%nat by lia.
    rewrite lookup_drop. replace (o + (i - o))%nat with i by lia.
    rewrite Hx. simpl. rewrite drop_insert_ge by lia. done.
  - rewrite drop_insert_lt by lia. done.
Qed.

Lemma valid_drop o index shape :
  valid index shape → valid (drop o index) (drop o shape).
Proof. apply Forall2_drop. Qed.

(** A valid index of a shape of rank at least 1 is not the shape. *)
Lemma valid_not_shape index shape :
  valid index shape → shape ≠ [] → index ≠ shape.
Proof.
  intros Hv Hne ->. inversion Hv; simplify_eq; lia.
Qed.

Lemma indexed_pos_not_end {V} (e : XIndexedStepper.expression V) o shape index :
  XIndexedStepper.shape e = drop o shape →
  XIndexedStepper.shape e ≠ [] →
  valid index shape →
  stepper_equal (indexed_pos e o index)
    (XIndexedStepper.make e (Z.of_nat o) true) = false.
Proof.
  intros He Hne Hv. unfold stepper_equal. simpl.
  unfold XIndexedStepper.equal. simpl.
  rewrite (bool_decide_eq_false_2 (drop o index = _)); [by rewrite andb_false_r|].
  rewrite He. apply valid_not_shape; [by apply valid_drop|by rewrite <- He].
Qed.

(** A complete traversal with an indexed stepper over an expression whose
    shape is the iteration shape without its first [o] extents. *)
Lemma indexed_traverse {V} (e : XIndexedStepper.expression V) (o : nat)
    (shape : list Z) (fuel : nat) :
  Forall is_size shape → Forall (λ s, 0 < s) shape →
  XIndexedStepper.shape e = drop o shape → XIndexedStepper.shape e ≠ [] →
  (Z.to_nat (prod shape) < fuel)%nat →
  ∃ its,
    XIterator.traverse fuel
      (XIterator.make (XIndexedStepper.make e (Z.of_nat o) false) shape)
      (XIterator.make (XIndexedStepper.make e (Z.of_nat o) true) shape)
    = Some its ∧
    Z.of_nat (length its) = prod shape.
Proof.
  intros Hsz Hpos He Hne Hfuel.
  pose proof (traverse_at_index shape (indexed_pos e o)
    (XIndexedStepper.make e (Z.of_nat o) true) Hsz) as HT.
  specialize (HT (λ index i x s Hx _, indexed_follow_step e o index i x Hx)).
  specialize (HT (λ index i x s Hx _ _, indexed_follow_reset e o index i x Hx)).
  specialize (HT (λ index, eq_refl)).
  specialize (HT (λ index, indexed_pos_not_end e o shape index He Hne)).
  assert (Hrefl : stepper_equal (XIndexedStepper.make e (Z.of_nat o) true)
                    (XIndexedStepper.make e (Z.of_nat o) true) = true).
  { unfold stepper_equal. simpl. unfold XIndexedStepper.equal.
    by rewrite !bool_decide_eq_true_2. }
  specialize (HT Hrefl fuel (replicate (length shape) 0) (valid_zeros _ Hpos)).
  rewrite lin_zeros, Z.sub_0_r in HT. specialize (HT Hfuel).
  assert (Hbegin : at_index shape (indexed_pos e o) (replicate (length shape) 0)
    = XIterator.make (XIndexedStepper.make e (Z.of_nat o) false) shape).
  { unfold at_index, XIterator.make, indexed_pos, XIndexedStepper.make.
    by rewrite drop_replicate, He, length_drop. }
  by rewrite Hbegin in HT.
Qed.

(** ** Word arithmetic up to wrap-around *)

#[global] Instance eqw_equivalence : Equivalence eqw.
Proof.
  unfold eqw. split.
  - by intros a.
  - by intros a b.
  - intros a b c. congruence.
Qed.

#[global] Instance eqw_add : Proper (eqw ==> eqw ==> eqw) Z.add.
Proof.
  unfold eqw, wrap. intros a a' Ha b b' Hb.
  rewrite (Z.add_mod a), (Z.add_mod a') by done. by rewrite Ha, Hb.
Qed.

#[global] Instance eqw_sub : Proper (eqw ==> eqw ==> eqw) Z.sub.
Proof.
  unfold eqw, wrap. intros a a' Ha b b' Hb.
  rewrite (Zminus_mod a), (Zminus_mod a'). by rewrite Ha, Hb.
Qed.

#[global] Instance eqw_mul : Proper (eqw ==> eqw ==> eqw) Z.mul.
Proof.
  unfold eqw, wrap. intros a a' Ha b b' Hb.
  rewrite (Z.mul_mod a), (Z.mul_mod a') by done. by rewrite Ha, Hb.
Qed.

Lemma wrap_eqw a : eqw (wrap a) a.
Proof. unfold eqw, wrap. by rewrite Z.mod_mod. Qed.

(** Two wrapped values are equal when their arguments are equal up to
    wrap-around. *)
Lemma wrap_proper a b : eqw a b → wrap a = wrap b.
Proof. done. Qed.

Ltac wrap_ring :=
  unfold size_add, size_sub, size_mul;
  apply wrap_proper; rewrite ?wrap_eqw;
  unfold eqw; f_equal; ring.

(** ** The strided stepper follows the index *)

Lemma dot_insert index : ∀ strides (k : nat) x y st,
  index !! k = Some x → strides !! k = Some st →
  dot (<[k := y]> index) strides = dot index strides + (y - x) * st.
Proof.
  induction index as [|a index IH]; intros [|b strides] [|k] x y st Hx Hst;
    simplify_eq/=; try lia.
  rewrite (IH _ _ _ _ _ Hx Hst). lia.
Qed.

Lemma dot_zeros n strides : dot (replicate n 0) strides = 0.
Proof.
  revert strides. induction n as [|n IH]; intros [|st strides]; simpl; auto.
  by rewrite IH.
Qed.

Lemma strided_follow_step {V} (c : XStepper.container V) b o shape index (i : nat) x s :
  strided_layout c o shape →
  index !! i = Some x → shape !! i = Some s →
  step (Z.of_nat i) 1 (strided_pos c b o index)
  = Some (strided_pos c b o (<[i := size_add x 1]> index)).
Proof.
  intros HL Hx Hs. unfold strided_pos. simpl. unfold XStepper.step. simpl.
  destruct (decide (Z.of_nat o ≤ Z.of_nat i)) as [Hle|Hgt].
  - replace (Z.to_nat (Z.of_nat i - Z.of_nat o)) with (i - o)%nat by lia.
    assert (Hs' : drop o shape !! (i - o)%nat = Some s).
    { rewrite lookup_drop. by replace (o + (i - o))%nat with i by lia. }
    destruct (Forall3_lookup_r _ _ _ _ _ _ HL Hs') as (st & bs & Hst & Hbs & _).
    rewrite Hst. simpl. rewrite drop_insert_ge by lia.
    rewrite (dot_insert _ _ _ x _ st); [|by rewrite lookup_drop; replace (o + (i - o))%nat with i by lia|done].
    do 2 f_equal. wrap_ring.
  - rewrite drop_insert_lt by lia. done.
Qed.

Lemma strided_follow_reset {V} (c : XStepper.container V) b o shape index (i : nat) x s :
  strided_layout c o shape →
  index !! i = Some x → shape !! i = Some s → carries x s →
  reset (Z.of_nat i) (strided_pos c b o index)
  = Some (strided_pos c b o (<[i := 0]> index)).
Proof.
  intros HL Hx Hs Hc. unfold strided_pos. simpl. unfold XStepper.reset. simpl.
  destruct (decide (Z.of_nat o ≤ Z.of_nat i)) as [Hle|Hgt].
  - replace (Z.to_nat (Z.of_nat i - Z.of_nat o)) with (i - o)%nat by lia.
    assert (Hs' : drop o shape !! (i - o)%nat = Some s).
    { rewrite lookup_drop. by replace (o + (i - o))%nat with i by lia. }
    destruct (Forall3_lookup_r _ _ _ _ _ _ HL Hs') as (st & bs & Hst & Hbs & ->).
    rewrite Hbs. simpl. rewrite drop_insert_ge by lia.
    rewrite (dot_insert _ _ _ x _ st); [|by rewrite lookup_drop; replace (o + (i - o))%nat with i by lia|done].
    red in Hc. subst s. do 2 f_equal. wrap_ring.
  - rewrite drop_insert_lt by lia. done.
Qed.

(** A complete traversal with a strided stepper. The begin position [b] is
    a machine word, the container is laid out for the shape, and no valid
    index is stored at the position of [end()]. *)
Lemma strided_traverse {V} (c : XStepper.container V) (b : Z) (o : nat)
    (shape : list Z) (fuel : nat) :
  Forall is_size shape → Forall (λ s, 0 < s) shape →
  is_size b →
  strided_layout c o shape →
  (∀ index, valid index shape →
     wrap (b + dot (drop o index) (XStepper.strides c)) ≠ XStepper.end_ c) →
  (Z.to_nat (prod shape) < fuel)%nat →
  ∃ its,
    XIterator.traverse fuel
      (XIterator.make (XStepper.mk c b (Z.of_nat o)) shape)
      (XIterator.make (XStepper.mk c (XStepper.end_ c) (Z.of_nat o)) shape)
    = Some its ∧
    Z.of_nat (length its) = prod shape.
Proof.
  intros Hsz Hpos Hb HL Hne Hfuel.
  pose proof (traverse_at_index shape (strided_pos c b o)
    (XStepper.mk c (XStepper.end_ c) (Z.of_nat o)) Hsz) as HT.
  specialize (HT (λ index i x s, strided_follow_step c b o shape index i x s HL)).
  specialize (HT (λ index i x s, strided_follow_reset c b o shape index i x s HL)).
  specialize (HT (λ index, eq_refl)).
  assert (Hnot : ∀ index, valid index shape →
    stepper_equal (strided_pos c b o index)
      (XStepper.mk c (XStepper.end_ c) (Z.of_nat o)) = false).
  { intros index Hv. unfold stepper_equal. simpl. unfold XStepper.equal. simpl.
    rewrite (bool_decide_eq_false_2 (wrap _ = _)) by by apply Hne.
    by rewrite andb_false_r. }
  assert (Hrefl : stepper_equal (XStepper.mk c (XStepper.end_ c) (Z.of_nat o))
                    (XStepper.mk c (XStepper.end_ c) (Z.of_nat o)) = true).
  { unfold stepper_equal. simpl. unfold XStepper.equal.
    by rewrite !bool_decide_eq_true_2. }
  specialize (HT Hnot Hrefl fuel (replicate (length shape) 0) (valid_zeros _ Hpos)).
  rewrite lin_zeros, Z.sub_0_r in HT. specialize (HT Hfuel).
  assert (Hbegin : at_index shape (strided_pos c b o) (replicate (length shape) 0)
    = XIterator.make (XStepper.mk c b (Z.of_nat o)) shape).
  { unfold at_index, XIterator.make, strided_pos.
    by rewrite drop_replicate, dot_zeros, Z.add_0_r, wrap_small. }
  by rewrite Hbegin in HT.
Qed.

(** * The properties of the specification *)

Lemma to_end_not_in_resets lo cnt : ToEnd ∉ resets_down lo cnt.
Proof.
  unfold resets_down. intros Hin.
  apply list_elem_of_fmap in Hin as (d & Hd & _). discriminate Hd.
Qed.

Lemma to_end_iff_all_carry index shape :
  length index = length shape →
  ∃ cs index', increment_calls index shape = Some (cs, index') ∧
               (ToEnd ∈ cs ↔ Forall2 carries index shape).
Proof.
  intros Hlen.
  destruct (carry_split index shape Hlen)
    as [Hall|(pre & x & suf & spre & s & ssuf & -> & -> & Hl & Hc & Hx)].
  - rewrite (increment_calls_end _ _ Hall). do 2 eexists. split; [done|].
    split; [done|]. intros _. apply elem_of_app. right. by left.
  - rewrite (increment_calls_step _ _ _ _ _ _ Hl Hc Hx).
    do 2 eexists. split; [done|]. split.
    + intros [Hin|Hin]%elem_of_app.
      * by apply to_end_not_in_resets in Hin.
      * apply list_elem_of_singleton in Hin. discriminate Hin.
    + intros Hall. apply Forall2_app_inv in Hall as [_ Hall]; [|done].
      apply Forall2_cons_1 in Hall as [? _]. done.
Qed.

(** From a valid index, the increment yields the valid index of the next
    row-major rank, unless it carries past dimension 0: then the index was
    the last one of the shape. *)
Lemma increment_calls_lin index shape :
  valid index shape → Forall is_size shape →
  ∃ cs index', increment_calls index shape = Some (cs, index') ∧
    (¬ Forall2 carries index shape →
     valid index' shape ∧ lin index' shape = lin index shape + 1) ∧
    (Forall2 carries index shape → lin index shape + 1 = prod shape).
Proof.
  intros Hv Hsz.
  destruct (carry_split index shape (valid_length _ _ Hv))
    as [Hall|(pre & x & suf & spre & s & ssuf & -> & -> & Hl & Hc & Hx)].
  - rewrite (increment_calls_end _ _ Hall). do 2 eexists. split; [done|].
    split; [done|]. intros _. rewrite (lin_last _ _ Hv Hsz Hall). lia.
  - rewrite (increment_calls_step _ _ _ _ _ _ Hl Hc Hx).
    do 2 eexists. split; [done|]. split.
    + intros _. by apply step_valid_lin.
    + intros Hall. apply Forall2_app_inv in Hall as [_ Hall]; [|done].
      apply Forall2_cons_1 in Hall as [? _]. done.
Qed.

(** C1, counterexample. Shape [[2,3]], index [(1,2)]: both dimensions
    carry, the increment carries past dimension 0 and leaves the index at
    [(2,0)]. Dimension 0 has carried and is not reset to 0, whereas the
    odometer successor of the specification resets every carried
    dimension. *)
Lemma increment_stepper_keeps_dimension0 :
  increment_calls [1; 2] [2; 3] = Some ([Reset 1; ToEnd], [2; 0]) ∧
  carries 1 2 ∧ carries 2 3 ∧
  fst (odometer_succ [1; 2] [2; 3]) = [0; 0] ∧
  snd <$> increment_calls [1; 2] [2; 3]
    ≠ Some (fst (odometer_succ [1; 2] [2; 3])).
Proof. repeat split. discriminate. Qed.

(** C1, amended. One call of [increment_stepper], for an index and a shape
    of the same rank:
    - any stepper receives the calls recorded by [increment_calls], in
      order;
    - when dimension [length pre] is the last one that does not carry, its
      coordinate is incremented, every dimension behind it is reset to 0,
      [reset(i)] is called on these from the last one down and then
      [step(length pre)], and [to_end] is not called;
    - when every dimension carries, the dimensions other than dimension 0
      are reset to 0 and receive [reset(i)], dimension 0 is left equal to
      [shape[0]] without a [reset], and [to_end] is called;
    - [to_end] is called exactly when every dimension carries;
    - from a valid index the new index is the valid index of the next
      row-major rank, unless the increment carries past dimension 0, which
      it does from the last index of the shape;
    - for shape [[2,3]] the indices visited from [(0,0)] are, in order,
      (0,0), (0,1), (0,2), (1,0), (1,1), (1,2). *)
Theorem increment_stepper_odometer {St} `{Stepper St} (stepper : St)
    (index shape pre suf spre ssuf : list Z) (x s : Z) :
  increment_stepper stepper index shape
    = ('(cs, index') ← increment_calls index shape;
       st' ← run_calls cs stepper;
       Some (st', index')) ∧
  (length pre = length spre → Forall2 carries suf ssuf → ¬ carries x s →
   increment_calls (pre ++ x :: suf) (spre ++ s :: ssuf)
     = Some (resets_down (S (length pre)) (length suf)
               ++ [Step (Z.of_nat (length pre)) 1],
             pre ++ size_add x 1 :: replicate (length suf) 0)) ∧
  (Forall2 carries index shape →
   increment_calls index shape
     = Some (resets_down 1 (length index - 1) ++ [ToEnd],
             match shape with
             | [] => []
             | s0 :: rest => s0 :: replicate (length rest) 0
             end)) ∧
  (length index = length shape →
   ∃ cs index', increment_calls index shape = Some (cs, index') ∧
                (ToEnd ∈ cs ↔ Forall2 carries index shape)) ∧
  (valid index shape → Forall is_size shape →
   ∃ cs index', increment_calls index shape = Some (cs, index') ∧
     (¬ Forall2 carries index shape →
      valid index' shape ∧ lin index' shape = lin index shape + 1) ∧
     (Forall2 carries index shape → lin index shape + 1 = prod shape)) ∧
  (λ k, XIterator.m_index
          <$> XIterator.incr_n k (XIterator.make ([] : list call) [2; 3]))
    <$> seq 0 6
  = Some <$> [[0; 0]; [0; 1]; [0; 2]; [1; 0]; [1; 1]; [1; 2]].
Proof.
  split; [apply increment_loop_replay|].
  split; [apply increment_calls_step|].
  split.
  { intros Hall. rewrite (increment_calls_end _ _ Hall).
    destruct Hall as [|x0 s0 rest srest Hx Hrest]; [done|].
    red in Hx. by rewrite Hx, (Forall2_length Hrest). }
  split; [apply to_end_iff_all_carry|].
  split; [apply increment_calls_lin|].
  vm_compute. reflexivity.
Qed.

Lemma increment_stepper_odometer_witness :
  increment_calls ([] ++ 0 :: [2]) ([] ++ 2 :: [3])
    = Some ([Reset 1; Step 0 1], [1; 0]) ∧
  increment_calls [1; 2] [2; 3] = Some ([Reset 1; ToEnd], [2; 0]) ∧
  (∃ cs index', increment_calls [1; 2] [2; 3] = Some (cs, index') ∧
                (ToEnd ∈ cs ↔ Forall2 carries [1; 2] [2; 3])) ∧
  (∃ cs index', increment_calls [1; 2] [2; 3] = Some (cs, index') ∧
     (¬ Forall2 carries [1; 2] [2; 3] →
      valid index' [2; 3] ∧ lin index' [2; 3] = lin [1; 2] [2; 3] + 1) ∧
     (Forall2 carries [1; 2] [2; 3] → lin [1; 2] [2; 3] + 1 = prod [2; 3])).
Proof.
  pose proof (increment_stepper_odometer ([] : list call)
                [1; 2] [2; 3] [] [2] [] [3] 0 2) as (_ & HA & HB & HC & HD & _).
  split; [|split; [|split]].
  - apply HA; [reflexivity| |].
    + repeat constructor.
    + unfold carries. vm_compute. discriminate.
  - apply HB. repeat constructor.
  - apply HC. reflexivity.
  - apply HD.
    + repeat constructor; lia.
    + repeat constructor; vm_compute; discriminate.
Defined.

(** C3. A container with strides [[3,1]] and backstrides [[6,2]],
    iteration shape [[3,3]], offset 0 and a begin iterator at cursor 0:
    the first nine positions have the cursors 0, 1, ..., 8 in that order,
    and after nine increments the iterator compares equal to the
    end-constructed one, whatever the address, the end position and the
    elements of the container. *)
Theorem strided_3x3_scenario {V} (a e : Z) (elems : Z → option V) :
  let c := XStepper.Container a [3; 1] [6; 2] e elems in
  let first := XIterator.make (XStepper.mk c 0 0) [3; 3] in
  let last := XIterator.make (XStepper.mk c (XStepper.end_ c) 0) [3; 3] in
  (λ k, (λ it, XStepper.m_it (XIterator.m_it it)) <$> XIterator.incr_n k first)
    <$> seq 0 9
  = Some <$> [0; 1; 2; 3; 4; 5; 6; 7; 8] ∧
  ∃ it, XIterator.incr_n 9 first = Some it ∧ XIterator.equal it last = true.
Proof.
  intros c first last. split; [vm_compute; reflexivity|].
  exists (XIterator.mk (XStepper.mk c e 0) [3; 0] [3; 3]).
  split; [vm_compute; reflexivity|].
  unfold XIterator.equal. simpl. unfold XStepper.equal. simpl.
  by rewrite !bool_decide_eq_true_2.
Qed.

(** C4. The strided stepper with rank-alignment offset: when
    [dim >= offset], [step(dim, n)] advances the cursor by
    [n * stride[dim - offset]], [step_back(dim, n)] moves it back by as
    much and [reset(dim)] moves it back by [backstride[dim - offset]], in
    word arithmetic and with the container and the offset unchanged; when
    [dim < offset] the three leave the stepper unchanged. *)
Theorem xstepper_step_reset {V} (s : XStepper.t V) (dim n st bs : Z) :
  (XStepper.m_offset s ≤ dim →
   XStepper.strides (XStepper.p_c s) !! Z.to_nat (dim - XStepper.m_offset s)
     = Some st →
   XStepper.step dim n s
     = Some (XStepper.mk (XStepper.p_c s) (wrap (XStepper.m_it s + n * st))
               (XStepper.m_offset s)) ∧
   XStepper.step_back dim n s
     = Some (XStepper.mk (XStepper.p_c s) (wrap (XStepper.m_it s - n * st))
               (XStepper.m_offset s))) ∧
  (XStepper.m_offset s ≤ dim →
   XStepper.backstrides (XStepper.p_c s) !! Z.to_nat (dim - XStepper.m_offset s)
     = Some bs →
   XStepper.reset dim s
     = Some (XStepper.mk (XStepper.p_c s) (wrap (XStepper.m_it s - bs))
               (XStepper.m_offset s))) ∧
  (dim < XStepper.m_offset s →
   XStepper.step dim n s = Some s ∧
   XStepper.step_back dim n s = Some s ∧
   XStepper.reset dim s = Some s).
Proof.
  unfold XStepper.step, XStepper.step_back, XStepper.reset.
  split; [|split].
  - intros Hle Hst. rewrite !decide_True by done. rewrite Hst. simpl.
    split; do 2 f_equal; wrap_ring.
  - intros Hle Hbs. rewrite decide_True by done. rewrite Hbs. done.
  - intros Hlt. rewrite !decide_False by lia. done.
Qed.

Lemma xstepper_step_reset_witness :
  let c := XStepper.Container 0 [3; 1] [6; 2] 9 (λ p : Z, Some p) in
  XStepper.step 2 2 (XStepper.mk c 4 1) = Some (XStepper.mk c 6 1) ∧
  XStepper.step_back 2 2 (XStepper.mk c 4 1) = Some (XStepper.mk c 2 1) ∧
  XStepper.reset 1 (XStepper.mk c 7 1) = Some (XStepper.mk c 1 1) ∧
  XStepper.step 0 5 (XStepper.mk c 4 1) = Some (XStepper.mk c 4 1) ∧
  XStepper.step_back 0 5 (XStepper.mk c 4 1) = Some (XStepper.mk c 4 1) ∧
  XStepper.reset 0 (XStepper.mk c 4 1) = Some (XStepper.mk c 4 1).
Proof.
  intros c.
  pose proof (xstepper_step_reset (XStepper.mk c 4 1) 2 2 1 0) as (HA & _ & _).
  pose proof (xstepper_step_reset (XStepper.mk c 7 1) 1 0 0 6) as (_ & HB & _).
  pose proof (xstepper_step_reset (XStepper.mk c 4 1) 0 5 0 0) as (_ & _ & HC).
  split; [|split; [|split]].
  - apply HA; [simpl; lia|reflexivity].
  - apply HA; [simpl; lia|reflexivity].
  - apply HB; [simpl; lia|reflexivity].
  - apply HC. simpl. lia.
Defined.

(** C5. Broadcast dimensions. For a strided stepper and for an indexed
    stepper with offset [o > 0]: [step], [step_back] and [reset] on a
    dimension [dim < o] return the stepper unchanged, so that the
    dereferenced element is the same before and after; on a dimension
    [dim >= o] they change the state exactly as the same operation on
    dimension [dim - o] changes the stepper with offset 0 over the same
    container (or expression) at the same position. *)
Theorem broadcast_offset_steppers {V}
    (c : XStepper.container V) (it : Z)
    (e : XIndexedStepper.expression V) (idx : list Z) (o dim n : Z) :
  let s := XStepper.mk c it o in
  let s0 := XStepper.mk c it 0 in
  let with_o := λ r, XStepper.mk (XStepper.p_c r) (XStepper.m_it r) o in
  let x := XIndexedStepper.mk e idx o in
  let x0 := XIndexedStepper.mk e idx 0 in
  let xwith_o := λ r,
    XIndexedStepper.mk (XIndexedStepper.p_e r) (XIndexedStepper.m_index r) o in
  0 < o →
  (dim < o →
   (XStepper.step dim n s = Some s ∧ XStepper.step_back dim n s = Some s ∧
    XStepper.reset dim s = Some s) ∧
   (XStepper.deref <$> XStepper.step dim n s = Some (XStepper.deref s) ∧
    XStepper.deref <$> XStepper.reset dim s = Some (XStepper.deref s)) ∧
   (XIndexedStepper.step dim n x = Some x ∧
    XIndexedStepper.step_back dim n x = Some x ∧
    XIndexedStepper.reset dim x = Some x) ∧
   (XIndexedStepper.deref <$> XIndexedStepper.step dim n x
      = Some (XIndexedStepper.deref x) ∧
    XIndexedStepper.deref <$> XIndexedStepper.reset dim x
      = Some (XIndexedStepper.deref x))) ∧
  (o ≤ dim →
   (XStepper.step dim n s = with_o <$> XStepper.step (dim - o) n s0 ∧
    XStepper.step_back dim n s = with_o <$> XStepper.step_back (dim - o) n s0 ∧
    XStepper.reset dim s = with_o <$> XStepper.reset (dim - o) s0) ∧
   (XIndexedStepper.step dim n x
      = xwith_o <$> XIndexedStepper.step (dim - o) n x0 ∧
    XIndexedStepper.step_back dim n x
      = xwith_o <$> XIndexedStepper.step_back (dim - o) n x0 ∧
    XIndexedStepper.reset dim x
      = xwith_o <$> XIndexedStepper.reset (dim - o) x0)).
Proof.
  intros s s0 with_o x x0 xwith_o Ho. split.
  - intros Hlt.
    unfold XStepper.step, XStepper.step_back, XStepper.reset,
      XIndexedStepper.step, XIndexedStepper.step_back, XIndexedStepper.reset.
    simpl. rewrite !decide_False by lia. done.
  - intros Hle.
    unfold XStepper.step, XStepper.step_back, XStepper.reset,
      XIndexedStepper.step, XIndexedStepper.step_back, XIndexedStepper.reset.
    simpl. rewrite !decide_True by lia. rewrite !Z.sub_0_r.
    repeat split.
    + by destruct (XStepper.strides c !! _).
    + by destruct (XStepper.strides c !! _).
    + by destruct (XStepper.backstrides c !! _).
    + by destruct (idx !! _).
    + by destruct (idx !! _).
    + by destruct (idx !! _).
Qed.

Lemma broadcast_offset_steppers_witness :
  let c := XStepper.Container 0 [3; 1] [6; 2] 9 (λ p : Z, Some p) in
  let e := XIndexedStepper.Expression 0 [3; 3] (λ i : list Z, Some (dot i [3; 1])) in
  (XStepper.step 0 1 (XStepper.mk c 4 1) = Some (XStepper.mk c 4 1) ∧
   XStepper.reset 0 (XStepper.mk c 4 1) = Some (XStepper.mk c 4 1) ∧
   XIndexedStepper.step 0 1 (XIndexedStepper.mk e [1; 1] 1)
     = Some (XIndexedStepper.mk e [1; 1] 1)) ∧
  (XStepper.step 2 1 (XStepper.mk c 4 1) = Some (XStepper.mk c 5 1) ∧
   XStepper.reset 2 (XStepper.mk c 4 1) = Some (XStepper.mk c 2 1) ∧
   XIndexedStepper.step 2 1 (XIndexedStepper.mk e [1; 1] 1)
     = Some (XIndexedStepper.mk e [1; 2] 1) ∧
   XIndexedStepper.reset 2 (XIndexedStepper.mk e [1; 1] 1)
     = Some (XIndexedStepper.mk e [1; 0] 1)).
Proof.
  intros c e.
  assert (H1 : 0 < 1) by lia.
  pose proof (broadcast_offset_steppers c 4 e [1; 1] 1 0 1 H1) as [HA _].
  pose proof (broadcast_offset_steppers c 4 e [1; 1] 1 2 1 H1) as [_ HB].
  assert (H01 : 0 < 1) by lia. assert (H12 : 1 ≤ 2) by lia.
  destruct (HA H01) as ((Ha1 & _ & Ha2) & _ & (Ha3 & _) & _).
  destruct (HB H12) as ((Hb1 & _ & Hb2) & (Hb3 & _ & Hb4)).
  split; [split; [exact Ha1|split; [exact Ha2|exact Ha3]]|].
  split; [exact Hb1|split; [exact Hb2|split; [exact Hb3|exact Hb4]]].
Defined.

(** ** Rank 0 *)

(** For a shape of rank 0 and any stepper, the loop body is not entered:
    the only call is [to_end], and the incremented iterator is the one
    constructed from the stepper moved to its end. *)
Lemma rank0_increment {St} `{Stepper St} (st : St) :
  increment_calls [] [] = Some ([ToEnd], []) ∧
  XIterator.incr (XIterator.make st []) = Some (XIterator.make (to_end st) []).
Proof. done. Qed.

(** Over a strided stepper whose begin position is not [end()], the
    traversal of a shape of rank 0 dereferences exactly once. *)
Lemma rank0_strided_one_element {V} (c : XStepper.container V) (b o : Z) :
  b ≠ XStepper.end_ c →
  let first := XIterator.make (XStepper.mk c b o) [] in
  let last := XIterator.make (XStepper.mk c (XStepper.end_ c) o) [] in
  XIterator.traverse 2 first last = Some [first].
Proof.
  intros Hb first last. simpl.
  unfold XIterator.equal. simpl. unfold XStepper.equal. simpl.
  rewrite (bool_decide_eq_false_2 (b = _)) by done.
  rewrite !bool_decide_eq_true_2 by done. done.
Qed.

(** C6, the code at the failing input. Over an indexed stepper on an
    expression of rank 0, the begin-constructed index and the
    end-constructed index are both the empty vector: the two iterators
    compare equal before any increment, and the traversal from the one to
    the other dereferences no element. *)
Theorem rank0_indexed_iterator_is_empty {V}
    (a : Z) (elem : list Z → option V) (o : Z) (fuel : nat) :
  let e := XIndexedStepper.Expression a [] elem in
  let first := XIterator.make (XIndexedStepper.make e o false) [] in
  let last := XIterator.make (XIndexedStepper.make e o true) [] in
  XIndexedStepper.make e o false = XIndexedStepper.make e o true ∧
  XIterator.equal first last = true ∧
  XIterator.traverse (S fuel) first last = Some [].
Proof.
  intros e first last.
  assert (Heq : XIterator.equal first last = true).
  { unfold XIterator.equal. simpl. unfold XIndexedStepper.equal. simpl.
    by rewrite !bool_decide_eq_true_2. }
  split; [done|]. split; [done|]. simpl. by rewrite Heq.
Qed.

(** ** The end of the indexed stepper *)

(** C8, the code at the failing input. Over an expression of rank 0,
    whatever its address, its elements and the offset: [to_end] sets the
    index vector to the shape, the empty vector; the position [()] is
    valid, since there is no coordinate to compare with an extent; and the
    stepper at this valid position, the begin-constructed one, compares
    equal to the end-positioned stepper over the same expression and
    offset, in either order. *)
Theorem indexed_end_ambiguous_at_rank0 {V}
    (a : Z) (elem : list Z → option V) (o : Z) :
  let e := XIndexedStepper.Expression a [] elem in
  let s := XIndexedStepper.mk e [] o in
  XIndexedStepper.m_index (XIndexedStepper.to_end s) = XIndexedStepper.shape e ∧
  valid (XIndexedStepper.m_index s) (XIndexedStepper.shape e) ∧
  s = XIndexedStepper.make e o false ∧
  XIndexedStepper.equal s (XIndexedStepper.to_end s) = true ∧
  XIndexedStepper.equal s (XIndexedStepper.make e o true) = true ∧
  XIndexedStepper.equal (XIndexedStepper.make e o true) s = true.
Proof.
  intros e s. split; [done|]. split; [constructor|]. split; [done|].
  assert (Heq : XIndexedStepper.equal s s = true).
  { unfold XIndexedStepper.equal. by rewrite !bool_decide_eq_true_2. }
  repeat split; exact Heq.
Qed.

(** Where the end of the indexed stepper is told apart. [to_end] sets the
    index vector of an indexed stepper to the shape of its expression; and
    when the expression has rank at least 1, a stepper at a valid
    position, [index[i] < shape[i]] for every [i], does not compare equal
    to an end-positioned stepper over the same expression and offset, in
    either order. *)
Theorem indexed_end_is_shape {V} (s : XIndexedStepper.t V)
    (e : XIndexedStepper.expression V) (index : list Z) (o : Z) :
  XIndexedStepper.m_index (XIndexedStepper.to_end s)
    = XIndexedStepper.shape (XIndexedStepper.p_e s) ∧
  XIndexedStepper.m_index (XIndexedStepper.make e o true)
    = XIndexedStepper.shape e ∧
  (XIndexedStepper.shape e ≠ [] → valid index (XIndexedStepper.shape e) →
   XIndexedStepper.equal (XIndexedStepper.mk e index o)
     (XIndexedStepper.make e o true) = false ∧
   XIndexedStepper.equal (XIndexedStepper.make e o true)
     (XIndexedStepper.mk e index o) = false).
Proof.
  split; [done|]. split; [done|]. intros Hne Hv.
  pose proof (valid_not_shape _ _ Hv Hne) as Hd.
  unfold XIndexedStepper.equal. simpl.
  rewrite (bool_decide_eq_false_2 (index = _)) by done.
  rewrite (bool_decide_eq_false_2 (_ = index)) by done.
  by rewrite !andb_false_r.
Qed.

Lemma indexed_end_is_shape_witness :
  let e := XIndexedStepper.Expression 0 [2; 3] (λ i : list Z, Some (dot i [3; 1])) in
  XIndexedStepper.equal (XIndexedStepper.mk e [1; 2] 0)
    (XIndexedStepper.make e 0 true) = false ∧
  XIndexedStepper.equal (XIndexedStepper.make e 0 true)
    (XIndexedStepper.mk e [1; 2] 0) = false.
Proof.
  intros e.
  pose proof (indexed_end_is_shape (XIndexedStepper.mk e [1; 2] 0) e [1; 2] 0)
    as (_ & _ & HA).
  apply HA.
  - simpl. discriminate.
  - simpl. repeat constructor; lia.
Defined.

(** ** Reset *)

Lemma xstepper_step_at {V} (c : XStepper.container V) (p o dim n st : Z) :
  o ≤ dim →
  XStepper.strides c !! Z.to_nat (dim - o) = Some st →
  XStepper.step dim n (XStepper.mk c p o)
  = Some (XStepper.mk c (size_add p (size_mul n st)) o) ∧
  XStepper.step_back dim n (XStepper.mk c p o)
  = Some (XStepper.mk c (size_sub p (size_mul n st)) o).
Proof.
  intros Hle Hst. unfold XStepper.step, XStepper.step_back. simpl.
  rewrite !decide_True by done. by rewrite Hst.
Qed.

Lemma repeat_step {V} (c : XStepper.container V) (o dim st : Z) (k : nat) :
  o ≤ dim →
  XStepper.strides c !! Z.to_nat (dim - o) = Some st →
  ∀ p, is_size p →
  repeat_op (XStepper.step dim 1) k (XStepper.mk c p o)
  = Some (XStepper.mk c (wrap (p + Z.of_nat k * st)) o).
Proof.
  intros Hle Hst. induction k as [|k IH]; intros p Hp.
  - simpl. by rewrite Z.add_0_r, wrap_small.
  - cbn [repeat_op].
    rewrite (proj1 (xstepper_step_at c p o dim 1 st Hle Hst)). simpl.
    rewrite IH by apply wrap_is_size.
    rewrite Nat2Z.inj_succ. unfold Z.succ. do 2 f_equal. wrap_ring.
Qed.

Lemma repeat_step_back {V} (c : XStepper.container V) (o dim st : Z) (k : nat) :
  o ≤ dim →
  XStepper.strides c !! Z.to_nat (dim - o) = Some st →
  ∀ p, is_size p →
  repeat_op (XStepper.step_back dim 1) k (XStepper.mk c p o)
  = Some (XStepper.mk c (wrap (p - Z.of_nat k * st)) o).
Proof.
  intros Hle Hst. induction k as [|k IH]; intros p Hp.
  - simpl. by rewrite Z.sub_0_r, wrap_small.
  - cbn [repeat_op].
    rewrite (proj2 (xstepper_step_at c p o dim 1 st Hle Hst)). simpl.
    rewrite IH by apply wrap_is_size.
    rewrite Nat2Z.inj_succ. unfold Z.succ. do 2 f_equal. wrap_ring.
Qed.

(** C9. A strided stepper on a dimension [dim >= offset] of extent
    [n >= 1] whose backstride is [stride * (n - 1)]: after [n - 1] single
    steps from a position, [reset(dim)] returns the stepper to that
    position, so that the element dereferenced is the one at coordinate 0
    of the dimension, the other coordinates being untouched, and it does
    what [n - 1] single calls of [step_back] on the dimension do. On a
    dimension [dim < offset] any number of steps, the reset and any number
    of steps back all leave the stepper where it is. *)
Theorem reset_returns_to_start {V} (c : XStepper.container V)
    (it o dim st bs n : Z) (k : nat) :
  let s := XStepper.mk c it o in
  (is_size it → o ≤ dim → 1 ≤ n →
   XStepper.strides c !! Z.to_nat (dim - o) = Some st →
   XStepper.backstrides c !! Z.to_nat (dim - o) = Some bs →
   bs = size_mul st (size_sub n 1) →
   ∃ s_last,
     repeat_op (XStepper.step dim 1) (Z.to_nat (n - 1)) s = Some s_last ∧
     XStepper.reset dim s_last = Some s ∧
     XStepper.deref <$> XStepper.reset dim s_last = Some (XStepper.deref s) ∧
     XStepper.reset dim s_last
       = repeat_op (XStepper.step_back dim 1) (Z.to_nat (n - 1)) s_last) ∧
  (dim < o →
   repeat_op (XStepper.step dim 1) k s = Some s ∧
   XStepper.reset dim s = Some s ∧
   repeat_op (XStepper.step_back dim 1) k s = Some s).
Proof.
  intros s. split.
  - intros Hit Hle Hn Hst Hbs ->. subst s.
    rewrite (repeat_step c o dim st) by done.
    eexists. split; [done|].
    rewrite (repeat_step_back c o dim st) by (done || apply wrap_is_size).
    rewrite Z2Nat.id by lia.
    assert (HR : XStepper.reset dim
                   (XStepper.mk c (wrap (it + (n - 1) * st)) o)
                 = Some (XStepper.mk c it o)).
    { unfold XStepper.reset. simpl. rewrite decide_True by done.
      rewrite Hbs. simpl. do 2 f_equal.
      rewrite <- (wrap_small it) at 2 by done. wrap_ring. }
    rewrite HR. split; [done|]. split; [done|].
    do 2 f_equal. rewrite <- (wrap_small it) at 1 by done. wrap_ring.
  - intros Hlt.
    assert (Hs : XStepper.step dim 1 s = Some s).
    { unfold XStepper.step. by rewrite decide_False by (simpl; lia). }
    assert (Hb : XStepper.step_back dim 1 s = Some s).
    { unfold XStepper.step_back. by rewrite decide_False by (simpl; lia). }
    split; [|split].
    + induction k as [|k IH]; simpl; [done|]. by rewrite Hs.
    + unfold XStepper.reset. by rewrite decide_False by (simpl; lia).
    + induction k as [|k IH]; simpl; [done|]. by rewrite Hb.
Qed.

Lemma reset_returns_to_start_witness :
  let c := XStepper.Container 0 [3; 1] [6; 2] 9 (λ p : Z, Some p) in
  (∃ s_last,
     repeat_op (XStepper.step 0 1) 2 (XStepper.mk c 1 0) = Some s_last ∧
     XStepper.reset 0 s_last = Some (XStepper.mk c 1 0) ∧
     XStepper.deref <$> XStepper.reset 0 s_last = Some (Some 1) ∧
     XStepper.reset 0 s_last = repeat_op (XStepper.step_back 0 1) 2 s_last) ∧
  (repeat_op (XStepper.step 0 1) 2 (XStepper.mk c 1 1)
     = Some (XStepper.mk c 1 1) ∧
   XStepper.reset 0 (XStepper.mk c 1 1) = Some (XStepper.mk c 1 1) ∧
   repeat_op (XStepper.step_back 0 1) 2 (XStepper.mk c 1 1)
     = Some (XStepper.mk c 1 1)).
Proof.
  intros c. split.
  - apply (reset_returns_to_start c 1 0 0 3 6 3 0).
    + unfold is_size. vm_compute. split; [discriminate|reflexivity].
    + lia.
    + lia.
    + reflexivity.
    + reflexivity.
    + reflexivity.
  - apply (reset_returns_to_start c 1 1 0 3 6 3 2). lia.
Defined.

(** ** Equality of iterators *)

(** C10. The comparison of two iterators is the comparison of their
    subiterators and of their shapes; the index vectors take no part in
    it: iterators over the same shape whose subiterators compare equal
    compare equal whatever their index vectors are. *)
Theorem xiterator_equal_ignores_index {St} `{Stepper St}
    (a b : XIterator.t St) (st st' : St) (sh index index' : list Z) :
  XIterator.equal a b
    = stepper_equal (XIterator.m_it a) (XIterator.m_it b)
      && bool_decide (XIterator.shape a = XIterator.shape b) ∧
  XIterator.equal a b
    = XIterator.equal
        (XIterator.mk (XIterator.m_it a) index (XIterator.shape a))
        (XIterator.mk (XIterator.m_it b) index' (XIterator.shape b)) ∧
  (stepper_equal st st' = true →
   XIterator.equal (XIterator.mk st index sh) (XIterator.mk st' index' sh) = true).
Proof.
  split; [done|]. split; [done|].
  intros Heq. unfold XIterator.equal. simpl. rewrite Heq.
  by rewrite bool_decide_eq_true_2.
Qed.

Lemma xiterator_equal_ignores_index_witness :
  let c := XStepper.Container 0 [] [] 1 (λ p : Z, Some 42) in
  let st := XStepper.mk c 0 1 in
  XIterator.equal (XIterator.mk st [0] [2]) (XIterator.mk st [1] [2]) = true.
Proof.
  intros c st.
  pose proof (xiterator_equal_ignores_index
                (XIterator.mk st [0] [2]) (XIterator.mk st [1] [2])
                st st [2] [0] [1]) as (_ & _ & HA).
  apply HA. reflexivity.
Defined.

(** C7, counterexample. A container of rank 0 holding one element is
    broadcast over the shape [[2]] with offset 1. The begin iterator is
    not at the end; its increment moves the index from [(0)] to [(1)] by
    [step(0)], a dimension below the offset, so that the stepper does not
    move: the incremented iterator and the one left in place still compare
    equal. *)
Lemma increment_on_broadcast_dimension_keeps_equality :
  let c := XStepper.Container 0 [] [] 1 (λ p : Z, Some 42) in
  let a := XIterator.make (XStepper.mk c 0 1) [2] in
  let last := XIterator.make (XStepper.mk c (XStepper.end_ c) 1) [2] in
  XIterator.equal a a = true ∧
  XIterator.equal a last = false ∧
  ∃ a', XIterator.incr a = Some a' ∧
        XIterator.m_index a' = [1] ∧
        XIterator.equal a' last = false ∧
        XIterator.equal a' a = true ∧ XIterator.equal a a' = true.
Proof.
  intros c a last. split; [vm_compute; reflexivity|].
  split; [vm_compute; reflexivity|].
  exists (XIterator.mk (XStepper.mk c 0 1) [1] [2]).
  repeat split; vm_compute; reflexivity.
Qed.

Lemma incr_keeps_shape {St} `{Stepper St} (it it' : XIterator.t St) :
  XIterator.incr it = Some it' → XIterator.shape it' = XIterator.shape it.
Proof.
  unfold XIterator.incr. intros Hi.
  destruct (increment_stepper _ _ _) as [[st idx]|]; simplify_eq/=. done.
Qed.

Lemma indexed_equal_refl {V} (s : XIndexedStepper.t V) :
  XIndexedStepper.equal s s = true.
Proof. unfold XIndexedStepper.equal. by rewrite !bool_decide_eq_true_2. Qed.

Lemma strided_equal_refl {V} (s : XStepper.t V) : XStepper.equal s s = true.
Proof. unfold XStepper.equal. by rewrite !bool_decide_eq_true_2. Qed.

(** The valid indices of the shape [[2,3]] and their positions in a
    row-major container. *)
Lemma valid_23_inv index :
  valid index [2; 3] → ∃ a b, index = [a; b] ∧ 0 ≤ a < 2 ∧ 0 ≤ b < 3.
Proof.
  intros Hv.
  apply Forall2_cons_inv_r in Hv as (a & rest & Ha & Hv & ->).
  apply Forall2_cons_inv_r in Hv as (b & rest' & Hb & Hv & ->).
  apply Forall2_nil_inv_r in Hv as ->. by exists a, b.
Qed.

Lemma position_23 index :
  valid index [2; 3] →
  ∃ a b, index = [a; b] ∧ 0 ≤ a < 2 ∧ 0 ≤ b < 3 ∧
         wrap (0 + dot (drop 0 index) [3; 1]) = 3 * a + b.
Proof.
  intros (a & b & -> & Ha & Hb)%valid_23_inv. exists a, b.
  repeat split; try lia. simpl. unfold wrap, size_modulus.
  rewrite Z.mod_small; lia.
Qed.

(** A carried coordinate of an extent of at least 2 is not 0. *)
Lemma all_carry_not_zero (l sl : list Z) :
  valid l sl → Forall is_size sl → Forall2 carries l sl →
  Exists (λ s, 2 ≤ s) sl → replicate (length l) 0 ≠ l.
Proof.
  induction 1 as [|x s l sl Hx Hv IH]; intros Hsz Hc Hex.
  - by apply Exists_nil in Hex.
  - apply Forall_cons_1 in Hsz as [Hs Hsz].
    apply Forall2_cons_1 in Hc as [Hc Hcc].
    apply valid_carries_iff in Hc; [|done..].
    apply Exists_cons in Hex as [Hex|Hex]; simpl.
    + intros [= H0 _]. lia.
    + intros [= _ Heq]. by apply IH.
Qed.

(** An increment that does not carry past dimension 0 changes a
    coordinate at or beyond the offset [o] when the offset is 0, or when
    an extent at or beyond the offset is at least 2. *)
Lemma increment_changes_drop pre x suf spre s ssuf (o : nat) :
  length pre = length spre →
  valid (pre ++ x :: suf) (spre ++ s :: ssuf) →
  Forall is_size (spre ++ s :: ssuf) →
  Forall2 carries suf ssuf →
  o = 0%nat ∨ Exists (λ s, 2 ≤ s) (drop o (spre ++ s :: ssuf)) →
  drop o (pre ++ size_add x 1 :: replicate (length suf) 0)
  ≠ drop o (pre ++ x :: suf).
Proof.
  intros Hlen Hv Hsz Hc Ho.
  apply Forall2_app_inv in Hv as [Hvp Hv]; [|done].
  apply Forall2_cons_1 in Hv as [Hvx Hv].
  apply Forall_app in Hsz as [Hsp Hsz].
  apply Forall_cons_1 in Hsz as [Hsx Hsz].
  assert (Hw : size_add x 1 = x + 1).
  { unfold size_add. apply wrap_small. unfold is_size in *. lia. }
  destruct (decide (o ≤ length pre)%nat) as [Hle|Hgt].
  - rewrite !drop_app_le by done. intros Heq.
    apply app_inv_head in Heq. injection Heq as Heq _. lia.
  - destruct Ho as [->|Hex]; [lia|].
    rewrite !drop_app_ge in * by lia.
    destruct (o - length pre)%nat as [|m] eqn:Hm; [lia|].
    rewrite <- Hlen, Hm in Hex. simpl in *.
    rewrite drop_replicate.
    replace (length suf - m)%nat with (length (drop m suf))
      by (by rewrite length_drop).
    apply (all_carry_not_zero _ (drop m ssuf));
      [by apply Forall2_drop|by apply Forall_drop|by apply Forall2_drop|done].
Qed.

(** One increment of an iterator whose stepper follows the index, when
    the stepper tells two valid positions apart exactly by their
    coordinates from the offset [o] on, and the end from all of them. *)
Lemma incr_equal_iff {St} `{Stepper St} shape (pos : list Z → St) endst (o : nat) :
  Forall is_size shape →
  (∀ index (i : nat) x s,
     index !! i = Some x → shape !! i = Some s →
     step (Z.of_nat i) 1 (pos index) = Some (pos (<[i := size_add x 1]> index))) →
  (∀ index (i : nat) x s,
     index !! i = Some x → shape !! i = Some s → carries x s →
     reset (Z.of_nat i) (pos index) = Some (pos (<[i := 0]> index))) →
  (∀ index, to_end (pos index) = endst) →
  (∀ i1 i2, valid i1 shape → valid i2 shape →
     stepper_equal (pos i1) (pos i2) = true ↔ drop o i1 = drop o i2) →
  (∀ i, valid i shape → stepper_equal endst (pos i) = false) →
  ∀ index, valid index shape →
  ∃ it', XIterator.incr (at_index shape pos index) = Some it' ∧
    (XIterator.equal it' (at_index shape pos index) = false ↔
     Forall2 carries index shape
     ∨ drop o (XIterator.m_index it') ≠ drop o index) ∧
    (o = 0%nat ∨ Exists (λ s, 2 ≤ s) (drop o shape) →
     XIterator.equal it' (at_index shape pos index) = false).
Proof.
  intros Hsz Hfs Hfr Hte Hpos Hend index Hv.
  unfold XIterator.incr, increment_stepper. simpl.
  rewrite increment_loop_replay.
  change (increment_loop (length index) [] index shape)
    with (increment_calls index shape).
  destruct (carry_split index shape (valid_length _ _ Hv))
    as [Hall|(pre & x & suf & spre & s & ssuf & Hi & Hsh & Hlen & Hc & Hx)].
  - rewrite (increment_calls_end _ _ Hall). simpl.
    rewrite (pos_end shape pos endst Hfr Hte _ Hall). simpl.
    eexists. split; [done|].
    assert (Hne : XIterator.equal
                    (XIterator.mk endst
                       match index with
                       | [] => []
                       | x :: rest => size_add x 1 :: replicate (length rest) 0
                       end shape)
                    (at_index shape pos index) = false).
    { unfold XIterator.equal. simpl. by rewrite Hend. }
    split; [|done]. split; [by left|done].
  - subst index.
    pose proof (increment_calls_step _ _ _ _ _ _ Hlen Hc Hx) as Hcalls.
    rewrite <- Hsh in Hcalls. rewrite Hcalls. simpl.
    rewrite (pos_step shape pos Hfs Hfr _ _ _ _ _ _ Hsh Hlen Hc). simpl.
    eexists. split; [done|].
    assert (Hv' : valid (pre ++ size_add x 1 :: replicate (length suf) 0) shape).
    { rewrite Hsh in Hv, Hsz |- *. by apply step_valid_lin. }
    assert (Hnall : ¬ Forall2 carries (pre ++ x :: suf) shape).
    { rewrite Hsh. intros Hall.
      apply Forall2_app_inv in Hall as [_ Hall]; [|done].
      apply Forall2_cons_1 in Hall as [? _]. done. }
    assert (Heq : XIterator.equal
              (XIterator.mk
                 (pos (pre ++ size_add x 1 :: replicate (length suf) 0))
                 (pre ++ size_add x 1 :: replicate (length suf) 0) shape)
              (at_index shape pos (pre ++ x :: suf)) = false ↔
            drop o (pre ++ size_add x 1 :: replicate (length suf) 0)
            ≠ drop o (pre ++ x :: suf)).
    { unfold XIterator.equal. simpl.
      rewrite bool_decide_eq_true_2, andb_true_r by done.
      rewrite <- (Hpos _ _ Hv' Hv). by rewrite not_true_iff_false. }
    split.
    + simpl. rewrite Heq. split; [by right|]. by intros [?|?].
    + intros Ho. apply Heq. rewrite Hsh in Hv, Hsz, Ho.
      by apply (increment_changes_drop pre x suf spre s ssuf o).
Qed.

(** C7, amended. After one of two identical iterators is incremented, the
    two compare as their subiterators do, the shape being the same: they
    compare unequal exactly when the subiterator after the increment
    compares unequal to the subiterator before it. At a valid position
    - of an iterator over an indexed stepper with offset [o] on an
      expression of rank at least 1 whose shape is the iteration shape
      without its first [o] extents, and
    - of an iterator over a strided stepper with offset [o] whose
      container is laid out for the shape, stores distinct valid indices
      of its own at distinct positions and none at [end()],
    two identical iterators compare equal, the increment is defined, and
    after it the two compare unequal exactly when the increment carries
    past dimension 0 or changes a coordinate at or beyond the offset. They
    always do when the offset is 0 or an extent at or beyond the offset is
    at least 2. They compare equal after an increment that does not carry
    past dimension 0 and leaves the coordinates from the offset on as they
    are; every increment that does not carry past dimension 0 is such when
    the strided container has no dimension of its own (the offset is at
    least the rank of the shape). *)
Theorem increment_breaks_equality {V}
    (e : XIndexedStepper.expression V) (c : XStepper.container V)
    (b : Z) (o : nat) (shape index : list Z) :
  (∀ St (HS : Stepper St) (it it' : XIterator.t St),
     XIterator.incr it = Some it' →
     XIterator.equal it' it
       = stepper_equal (XIterator.m_it it') (XIterator.m_it it) ∧
     XIterator.equal it it'
       = stepper_equal (XIterator.m_it it) (XIterator.m_it it')) ∧
  (Forall is_size shape → valid index shape →
   XIndexedStepper.shape e = drop o shape → XIndexedStepper.shape e ≠ [] →
   let it := XIterator.mk (indexed_pos e o index) index shape in
   XIterator.equal it it = true ∧
   ∃ it', XIterator.incr it = Some it' ∧
     (XIterator.equal it' it = false ↔
      Forall2 carries index shape
      ∨ drop o (XIterator.m_index it') ≠ drop o index) ∧
     (o = 0%nat ∨ Exists (λ s, 2 ≤ s) (drop o shape) →
      XIterator.equal it' it = false)) ∧
  (Forall is_size shape → valid index shape →
   strided_layout c o shape →
   (∀ j1 j2, valid j1 (drop o shape) → valid j2 (drop o shape) →
      wrap (b + dot j1 (XStepper.strides c))
      = wrap (b + dot j2 (XStepper.strides c)) → j1 = j2) →
   (∀ j, valid j (drop o shape) →
      wrap (b + dot j (XStepper.strides c)) ≠ XStepper.end_ c) →
   let it := XIterator.mk (strided_pos c b o index) index shape in
   XIterator.equal it it = true ∧
   ∃ it', XIterator.incr it = Some it' ∧
     (XIterator.equal it' it = false ↔
      Forall2 carries index shape
      ∨ drop o (XIterator.m_index it') ≠ drop o index) ∧
     (o = 0%nat ∨ Exists (λ s, 2 ≤ s) (drop o shape) →
      XIterator.equal it' it = false) ∧
     ((length shape ≤ o)%nat → ¬ Forall2 carries index shape →
      XIterator.equal it' it = true)).
Proof.
  split; [|split].
  - intros St HS it it' Hi. unfold XIterator.equal.
    rewrite (incr_keeps_shape _ _ Hi).
    by rewrite bool_decide_eq_true_2, !andb_true_r.
  - intros Hsz Hv He Hne it. split.
    { unfold XIterator.equal. simpl. unfold stepper_equal. simpl.
      by rewrite indexed_equal_refl, bool_decide_eq_true_2. }
    apply (incr_equal_iff shape (indexed_pos e o)
             (XIndexedStepper.make e (Z.of_nat o) true) o Hsz
             (λ index i x s Hx _, indexed_follow_step e o index i x Hx)
             (λ index i x s Hx _ _, indexed_follow_reset e o index i x Hx)
             (λ index, eq_refl)); [| |done].
    + intros i1 i2 _ _. unfold stepper_equal. simpl.
      unfold XIndexedStepper.equal. simpl.
      rewrite (bool_decide_eq_true_2 (XIndexedStepper.addr e = _)) by done.
      rewrite (bool_decide_eq_true_2 (Z.of_nat o = _)) by done.
      rewrite andb_true_r. simpl. apply bool_decide_eq_true.
    + intros i Hi. unfold stepper_equal. simpl.
      unfold XIndexedStepper.equal. simpl.
      rewrite (bool_decide_eq_false_2 (_ = drop o i));
        [by rewrite andb_false_r|].
      rewrite He. intros Heq.
      apply (valid_not_shape (drop o i) (drop o shape));
        [by apply valid_drop|by rewrite <- He|done].
  - intros Hsz Hv HL Hinj Hend it. split.
    { unfold XIterator.equal. simpl. unfold stepper_equal. simpl.
      by rewrite strided_equal_refl, bool_decide_eq_true_2. }
    destruct (incr_equal_iff shape (strided_pos c b o)
             (XStepper.mk c (XStepper.end_ c) (Z.of_nat o)) o Hsz
             (λ index i x s, strided_follow_step c b o shape index i x s HL)
             (λ index i x s, strided_follow_reset c b o shape index i x s HL)
             (λ index, eq_refl)) with (index := index)
      as (it' & Hincr & Hiff & Hbig); [| |done|].
    + intros i1 i2 H1 H2. unfold stepper_equal. simpl.
      unfold XStepper.equal. simpl.
      rewrite (bool_decide_eq_true_2 (XStepper.addr c = _)) by done.
      rewrite (bool_decide_eq_true_2 (Z.of_nat o = _)) by done.
      rewrite andb_true_r. simpl. rewrite bool_decide_eq_true. split.
      * apply Hinj; by apply valid_drop.
      * by intros ->.
    + intros i Hi. unfold stepper_equal. simpl.
      unfold XStepper.equal. simpl.
      rewrite (bool_decide_eq_false_2 (_ = wrap _));
        [by rewrite andb_false_r|].
      intros Heq. apply (Hend (drop o i)); [by apply valid_drop|done].
    + exists it'. split; [done|]. split; [done|]. split; [done|].
      intros Ho Hnc.
      destruct (XIterator.equal it' it) eqn:Heq; [done|].
      apply Hiff in Heq as [Hall|Hd]; [done|].
      exfalso. apply Hd.
      pose proof (valid_length _ _ Hv) as Hlen.
      assert (Hl' : length (XIterator.m_index it') = length index).
      { unfold XIterator.incr, increment_stepper in Hincr. simpl in Hincr.
        destruct (increment_loop _ _ _ _) as [[st1 idx1]|] eqn:Hloop;
          simplify_eq/=.
        clear -Hloop. revert Hloop.
        generalize (strided_pos c b o index). generalize (length index) at 1.
        intros i. revert index idx1.
        induction i as [|i IH]; intros index idx1 st; simpl.
        - by intros [= _ ->].
        - destruct (index !! i) as [x|]; simpl; [|done].
          destruct (shape !! i) as [s|]; simpl; [|done].
          repeat case_decide.
          + destruct (XStepper.step _ 1 st) as [st2|]; simpl; [|done].
            intros [= _ <-]. by rewrite length_insert.
          + destruct (XStepper.reset _ st) as [st2|]; simpl; [|done].
            intros Hl. rewrite (IH _ _ _ Hl). by rewrite !length_insert.
          + intros Hl. rewrite (IH _ _ _ Hl). by rewrite length_insert. }
      rewrite !drop_ge by lia. done.
Qed.

Lemma increment_breaks_equality_witness :
  let e := XIndexedStepper.Expression 0 [3] (λ i : list Z, Some (dot i [1])) in
  let c := XStepper.Container 0 [1] [2] 3 (λ p : Z, Some p) in
  let c0 := XStepper.Container 0 [] [] 1 (λ p : Z, Some 42) in
  (let it := XIterator.mk (indexed_pos e 1 [0; 2]) [0; 2] [2; 3] in
   XIterator.equal it it = true ∧
   ∃ it', XIterator.incr it = Some it' ∧
     (XIterator.equal it' it = false ↔
      Forall2 carries [0; 2] [2; 3]
      ∨ drop 1 (XIterator.m_index it') ≠ drop 1 [0; 2]) ∧
     (1%nat = 0%nat ∨ Exists (λ s, 2 ≤ s) (drop 1 [2; 3]) →
      XIterator.equal it' it = false)) ∧
  (let it := XIterator.mk (strided_pos c 0 1 [0; 2]) [0; 2] [2; 3] in
   XIterator.equal it it = true ∧
   ∃ it', XIterator.incr it = Some it' ∧
     (XIterator.equal it' it = false ↔
      Forall2 carries [0; 2] [2; 3]
      ∨ drop 1 (XIterator.m_index it') ≠ drop 1 [0; 2]) ∧
     (1%nat = 0%nat ∨ Exists (λ s, 2 ≤ s) (drop 1 [2; 3]) →
      XIterator.equal it' it = false) ∧
     ((length [2; 3] ≤ 1)%nat → ¬ Forall2 carries [0; 2] [2; 3] →
      XIterator.equal it' it = true)) ∧
  (let it := XIterator.mk (strided_pos c0 0 1 [0]) [0] [2] in
   XIterator.equal it it = true ∧
   ∃ it', XIterator.incr it = Some it' ∧
     (XIterator.equal it' it = false ↔
      Forall2 carries [0] [2]
      ∨ drop 1 (XIterator.m_index it') ≠ drop 1 [0]) ∧
     (1%nat = 0%nat ∨ Exists (λ s, 2 ≤ s) (drop 1 [2]) →
      XIterator.equal it' it = false) ∧
     ((length [2] ≤ 1)%nat → ¬ Forall2 carries [0] [2] →
      XIterator.equal it' it = true)).
Proof.
  intros e c c0.
  assert (Hsz : Forall is_size [2; 3]).
  { repeat constructor; vm_compute; discriminate. }
  assert (Hsz' : Forall is_size [2]).
  { repeat constructor; vm_compute; discriminate. }
  assert (Hv : valid [0; 2] [2; 3]) by (repeat constructor; lia).
  assert (Hv' : valid [0] [2]) by (repeat constructor; lia).
  pose proof (increment_breaks_equality e c 0 1 [2; 3] [0; 2]) as (_ & HA & HB).
  pose proof (increment_breaks_equality e c0 0 1 [2] [0]) as (_ & _ & HC).
  split; [|split].
  - apply HA; [exact Hsz|exact Hv|reflexivity|discriminate].
  - apply HB; [exact Hsz|exact Hv| | |].
    + repeat constructor.
    + intros j1 j2 H1 H2.
      apply Forall2_cons_inv_r in H1 as (a1 & r1 & Ha1 & H1 & ->).
      apply Forall2_nil_inv_r in H1 as ->.
      apply Forall2_cons_inv_r in H2 as (a2 & r2 & Ha2 & H2 & ->).
      apply Forall2_nil_inv_r in H2 as ->.
      change (XStepper.strides c) with [1]. simpl.
      unfold wrap, size_modulus. rewrite !Z.mod_small by lia.
      intros Heq. f_equal. lia.
    + intros j H1.
      apply Forall2_cons_inv_r in H1 as (a1 & r1 & Ha1 & H1 & ->).
      apply Forall2_nil_inv_r in H1 as ->.
      change (XStepper.strides c) with [1].
      change (XStepper.end_ c) with 3. simpl.
      unfold wrap, size_modulus. rewrite Z.mod_small by lia. lia.
  - apply HC; [exact Hsz'|exact Hv'| | |].
    + constructor.
    + intros j1 j2 H1 H2 _.
      apply Forall2_nil_inv_r in H1 as ->.
      by apply Forall2_nil_inv_r in H2 as ->.
    + intros j H1. apply Forall2_nil_inv_r in H1 as ->.
      vm_compute. discriminate.
Defined.

(** ** The number of dereferences of a complete traversal *)

Lemma traverse_not_empty {St} `{Stepper St} (a b : XIterator.t St) fuel its :
  XIterator.equal a b = false →
  XIterator.traverse fuel a b = Some its → (0 < length its)%nat.
Proof.
  intros Hne. destruct fuel as [|fuel]; [discriminate|].
  cbn [XIterator.traverse]. rewrite Hne.
  destruct (XIterator.incr a) as [a'|]; [|discriminate]. simpl.
  destruct (XIterator.traverse fuel a' b) as [rest|]; [|discriminate].
  simpl. intros [= <-]. simpl. lia.
Qed.

(** C2, counterexample. A shape with an extent 0 has no element, and yet
    the traversal dereferences:
    - an expression of shape [[2,0]] under an indexed stepper has the
      begin index [(0,0)] and the end index [(2,0)];
    - a container of shape [[3]] broadcast with offset 1 over the shape
      [[0,3]] has its begin at position 0 and its end at position 3.
    In both the begin-constructed iterator differs from the end-constructed
    one, and a traversal that comes to its end has dereferenced. *)
Lemma empty_shape_traversal_dereferences :
  let e := XIndexedStepper.Expression 0 [2; 0] (λ _ : list Z, @None Z) in
  let first := XIterator.make (XIndexedStepper.make e 0 false) [2; 0] in
  let last := XIterator.make (XIndexedStepper.make e 0 true) [2; 0] in
  let c := XStepper.Container 0 [1] [2] 3 (λ p : Z, Some p) in
  let first' := XIterator.make (XStepper.mk c 0 1) [0; 3] in
  let last' := XIterator.make (XStepper.mk c (XStepper.end_ c) 1) [0; 3] in
  (prod [2; 0] = 0 ∧
   XIterator.equal first last = false ∧
   ∀ fuel its, XIterator.traverse fuel first last = Some its →
               Z.of_nat (length its) ≠ prod [2; 0]) ∧
  (prod [0; 3] = 0 ∧
   XIterator.equal first' last' = false ∧
   ∀ fuel its, XIterator.traverse fuel first' last' = Some its →
               Z.of_nat (length its) ≠ prod [0; 3]).
Proof.
  intros e first last c first' last'.
  assert (Hne : XIterator.equal first last = false) by (vm_compute; reflexivity).
  assert (Hne' : XIterator.equal first' last' = false) by (vm_compute; reflexivity).
  split; (split; [reflexivity|]); (split; [done|]); intros fuel its Ht.
  - pose proof (traverse_not_empty _ _ _ _ Hne Ht).
    change (prod [2; 0]) with 0. lia.
  - pose proof (traverse_not_empty _ _ _ _ Hne' Ht).
    change (prod [0; 3]) with 0. lia.
Qed.

(** C2, amended. For a shape whose extents are all positive, the traversal
    from the begin-constructed iterator to the end-constructed one, given
    fuel for more than [prod shape] tests, dereferences at exactly
    [prod shape] iterators:
    - over an indexed stepper with offset [o] on an expression of rank at
      least 1 whose shape is the iteration shape without its first [o]
      extents;
    - over a strided stepper with offset [o] that begins at the position
      [b], when the container is laid out for the shape and no valid index
      is stored at [end()]. *)
Theorem traversal_dereferences_every_element {V}
    (e : XIndexedStepper.expression V) (c : XStepper.container V)
    (b : Z) (o : nat) (shape : list Z) (fuel : nat) :
  Forall is_size shape → Forall (λ s, 0 < s) shape →
  (Z.to_nat (prod shape) < fuel)%nat →
  (XIndexedStepper.shape e = drop o shape → XIndexedStepper.shape e ≠ [] →
   ∃ its,
     XIterator.traverse fuel
       (XIterator.make (XIndexedStepper.make e (Z.of_nat o) false) shape)
       (XIterator.make (XIndexedStepper.make e (Z.of_nat o) true) shape)
     = Some its ∧
     Z.of_nat (length its) = prod shape) ∧
  (is_size b → strided_layout c o shape →
   (∀ index, valid index shape →
      wrap (b + dot (drop o index) (XStepper.strides c)) ≠ XStepper.end_ c) →
   ∃ its,
     XIterator.traverse fuel
       (XIterator.make (XStepper.mk c b (Z.of_nat o)) shape)
       (XIterator.make (XStepper.mk c (XStepper.end_ c) (Z.of_nat o)) shape)
     = Some its ∧
     Z.of_nat (length its) = prod shape).
Proof.
  intros Hsz Hpos Hfuel. split.
  - intros He Hne. by apply indexed_traverse.
  - intros Hb HL Hend. by apply strided_traverse.
Qed.

Lemma traversal_dereferences_every_element_witness :
  let e := XIndexedStepper.Expression 0 [2; 3] (λ i : list Z, Some (dot i [3; 1])) in
  let c := XStepper.Container 0 [3; 1] [3; 2] 6 (λ p : Z, Some p) in
  (∃ its,
     XIterator.traverse 7
       (XIterator.make (XIndexedStepper.make e 0 false) [2; 3])
       (XIterator.make (XIndexedStepper.make e 0 true) [2; 3])
     = Some its ∧ Z.of_nat (length its) = 6) ∧
  (∃ its,
     XIterator.traverse 7
       (XIterator.make (XStepper.mk c 0 0) [2; 3])
       (XIterator.make (XStepper.mk c 6 0) [2; 3])
     = Some its ∧ Z.of_nat (length its) = 6).
Proof.
  intros e c.
  assert (Hsz : Forall is_size [2; 3]).
  { repeat constructor; vm_compute; discriminate. }
  assert (Hpos : Forall (λ s, 0 < s) [2; 3]).
  { repeat constructor. }
  assert (Hfuel : (Z.to_nat (prod [2; 3]%Z) < 7)%nat).
  { vm_compute. lia. }
  pose proof (traversal_dereferences_every_element e c 0 0 [2; 3] 7
                Hsz Hpos Hfuel) as [HA HB].
  split.
  - apply HA; [reflexivity|discriminate].
  - apply HB.
    + vm_compute. split; [discriminate|reflexivity].
    + repeat constructor.
    + intros i Hi.
      destruct (position_23 i Hi) as (a1 & b1 & -> & ? & ? & E1).
      change (XStepper.strides c) with [3; 1]. rewrite E1.
      change (XStepper.end_ c) with 6. lia.
Defined.

(** * Further properties of the steppers and of the iterator *)

Ltac wrap_solve :=
  unfold size_add, size_sub, size_mul;
  apply wrap_proper; repeat (setoid_rewrite wrap_eqw);
  unfold eqw; apply (f_equal wrap); ring.

(** ** Steps and their inverses *)

Lemma size_add_sub x n : is_size x → size_sub (size_add x n) n = x.
Proof.
  intros Hx. rewrite <- (wrap_small x) at 2 by done. wrap_solve.
Qed.

Lemma size_sub_add x n : is_size x → size_add (size_sub x n) n = x.
Proof.
  intros Hx. rewrite <- (wrap_small x) at 2 by done. wrap_solve.
Qed.

(** X1. [step_back(dim, n)] undoes [step(dim, n)] and conversely, on a
    strided stepper whose cursor is a machine word and on an indexed
    stepper whose coordinates are [size_type] values, for every dimension
    and every [n], also when [n * stride] or the coordinate wraps around. *)
Theorem step_back_undoes_step {V} (s s' : XStepper.t V)
    (x x' : XIndexedStepper.t V) (dim n : Z) :
  (is_size (XStepper.m_it s) →
   XStepper.step dim n s = Some s' → XStepper.step_back dim n s' = Some s) ∧
  (is_size (XStepper.m_it s) →
   XStepper.step_back dim n s = Some s' → XStepper.step dim n s' = Some s) ∧
  (Forall is_size (XIndexedStepper.m_index x) →
   XIndexedStepper.step dim n x = Some x' →
   XIndexedStepper.step_back dim n x' = Some x) ∧
  (Forall is_size (XIndexedStepper.m_index x) →
   XIndexedStepper.step_back dim n x = Some x' →
   XIndexedStepper.step dim n x' = Some x).
Proof.
  unfold XStepper.step, XStepper.step_back,
    XIndexedStepper.step, XIndexedStepper.step_back.
  destruct s as [c p o], x as [e idx xo]. simpl.
  repeat split.
  - intros Hs Hstep. case_decide; simplify_eq/=.
    + destruct (XStepper.strides c !! _) as [st|] eqn:Hst; simplify_eq/=.
      rewrite decide_True by done. rewrite Hst. simpl.
      by rewrite size_add_sub.
    + by rewrite decide_False.
  - intros Hs Hstep. case_decide; simplify_eq/=.
    + destruct (XStepper.strides c !! _) as [st|] eqn:Hst; simplify_eq/=.
      rewrite decide_True by done. rewrite Hst. simpl.
      by rewrite size_sub_add.
    + by rewrite decide_False.
  - intros Hs Hstep. case_decide; simplify_eq/=.
    + destruct (idx !! _) as [a|] eqn:Ha; simplify_eq/=.
      rewrite decide_True by done.
      rewrite list_lookup_insert_eq by (by eapply lookup_lt_Some). simpl.
      rewrite list_insert_insert_eq, size_add_sub
        by (by eapply Forall_lookup_1).
      by rewrite list_insert_id.
    + by rewrite decide_False.
  - intros Hs Hstep. case_decide; simplify_eq/=.
    + destruct (idx !! _) as [a|] eqn:Ha; simplify_eq/=.
      rewrite decide_True by done.
      rewrite list_lookup_insert_eq by (by eapply lookup_lt_Some). simpl.
      rewrite list_insert_insert_eq, size_sub_add
        by (by eapply Forall_lookup_1).
      by rewrite list_insert_id.
    + by rewrite decide_False.
Qed.

Lemma step_back_undoes_step_witness :
  let c := XStepper.Container 0 [3; 1] [6; 2] 9 (λ p : Z, Some p) in
  let e := XIndexedStepper.Expression 0 [3; 3] (λ i : list Z, Some (dot i [3; 1])) in
  XStepper.step_back 1 2 (XStepper.mk c 6 0) = Some (XStepper.mk c 4 0) ∧
  XStepper.step 1 5 (XStepper.mk c (size_sub 4 5) 0) = Some (XStepper.mk c 4 0) ∧
  XIndexedStepper.step_back 0 2 (XIndexedStepper.mk e [2; 1] 0)
    = Some (XIndexedStepper.mk e [0; 1] 0) ∧
  XIndexedStepper.step 0 2 (XIndexedStepper.mk e [size_sub 0 2; 1] 0)
    = Some (XIndexedStepper.mk e [0; 1] 0).
Proof.
  intros c e.
  assert (H4 : is_size 4) by (vm_compute; split; [discriminate|reflexivity]).
  assert (Hi : Forall is_size [0; 1]).
  { repeat constructor; vm_compute; discriminate. }
  split; [|split; [|split]].
  - apply (step_back_undoes_step (XStepper.mk c 4 0) (XStepper.mk c 6 0)
             (XIndexedStepper.mk e [0; 1] 0) (XIndexedStepper.mk e [0; 1] 0) 1 2);
      [exact H4|reflexivity].
  - apply (step_back_undoes_step (XStepper.mk c 4 0)
             (XStepper.mk c (size_sub 4 5) 0)
             (XIndexedStepper.mk e [0; 1] 0) (XIndexedStepper.mk e [0; 1] 0) 1 5);
      [exact H4|reflexivity].
  - apply (step_back_undoes_step (XStepper.mk c 4 0) (XStepper.mk c 4 0)
             (XIndexedStepper.mk e [0; 1] 0) (XIndexedStepper.mk e [2; 1] 0) 0 2);
      [exact Hi|reflexivity].
  - apply (step_back_undoes_step (XStepper.mk c 4 0) (XStepper.mk c 4 0)
             (XIndexedStepper.mk e [0; 1] 0)
             (XIndexedStepper.mk e [size_sub 0 2; 1] 0) 0 2);
      [exact Hi|reflexivity].
Defined.

(** ** Composition of steps *)

Lemma lookup_insert_is_None (l : list Z) (i j : nat) (y : Z) :
  l !! i = None → <[j := y]> l !! i = None.
Proof.
  intros Hn. apply lookup_ge_None. rewrite length_insert.
  by apply lookup_ge_None.
Qed.

(** X2. Steps compose: on both steppers [step(dim, n)] followed by
    [step(dim, m)] is [step(dim, n + m)], and steps on any two dimensions
    commute, in word arithmetic; when one of the two accesses is out of
    range, both orders are. *)
Theorem steps_compose {V} (s : XStepper.t V) (x : XIndexedStepper.t V)
    (d1 d2 n m : Z) :
  (XStepper.step d1 n s ≫= XStepper.step d1 m) = XStepper.step d1 (n + m) s ∧
  (XStepper.step d1 n s ≫= XStepper.step d2 m)
    = (XStepper.step d2 m s ≫= XStepper.step d1 n) ∧
  (XIndexedStepper.step d1 n x ≫= XIndexedStepper.step d1 m)
    = XIndexedStepper.step d1 (n + m) x ∧
  (XIndexedStepper.step d1 n x ≫= XIndexedStepper.step d2 m)
    = (XIndexedStepper.step d2 m x ≫= XIndexedStepper.step d1 n).
Proof.
  destruct s as [c p o], x as [e idx xo].
  unfold XStepper.step, XIndexedStepper.step. simpl.
  split; [|split; [|split]].
  - case_decide; simpl; [|by rewrite decide_False].
    destruct (XStepper.strides c !! _) as [st|] eqn:Hst; simpl; [|done].
    rewrite decide_True by done. rewrite Hst. simpl.
    do 2 f_equal. wrap_solve.
  - destruct (decide (o ≤ d1)) as [H1|H1], (decide (o ≤ d2)) as [H2|H2]; simpl.
    + destruct (XStepper.strides c !! Z.to_nat (d1 - o)) as [s1|] eqn:E1,
        (XStepper.strides c !! Z.to_nat (d2 - o)) as [s2|] eqn:E2; simpl;
        rewrite ?decide_True by done; rewrite ?E1, ?E2; simpl; try done.
      do 2 f_equal. wrap_solve.
    + destruct (XStepper.strides c !! Z.to_nat (d1 - o)) as [s1|] eqn:E1; simpl;
        repeat case_decide; rewrite ?E1; done.
    + destruct (XStepper.strides c !! Z.to_nat (d2 - o)) as [s2|] eqn:E2; simpl;
        repeat case_decide; rewrite ?E2; done.
    + by rewrite !decide_False.
  - case_decide; simpl; [|by rewrite decide_False].
    destruct (idx !! _) as [a|] eqn:Ha; simpl; [|done].
    rewrite decide_True by done.
    rewrite list_lookup_insert_eq by (by eapply lookup_lt_Some). simpl.
    rewrite list_insert_insert_eq. do 3 f_equal. wrap_solve.
  - destruct (decide (xo ≤ d1)) as [H1|H1], (decide (xo ≤ d2)) as [H2|H2]; simpl.
    + destruct (idx !! Z.to_nat (d1 - xo)) as [a|] eqn:E1,
        (idx !! Z.to_nat (d2 - xo)) as [b|] eqn:E2; simpl;
        rewrite ?decide_True by done; simpl.
      * destruct (decide (Z.to_nat (d1 - xo) = Z.to_nat (d2 - xo))) as [Hk|Hk].
        -- rewrite <- Hk in *. simplify_eq.
           rewrite !list_lookup_insert_eq by (by eapply lookup_lt_Some). simpl.
           rewrite !list_insert_insert_eq. do 3 f_equal. wrap_solve.
        -- rewrite !list_lookup_insert_ne by done. rewrite E1, E2. simpl.
           by rewrite list_insert_insert_ne.
      * by rewrite lookup_insert_is_None.
      * by rewrite lookup_insert_is_None.
      * done.
    + destruct (idx !! Z.to_nat (d1 - xo)) as [a|] eqn:E1; simpl;
        repeat case_decide; rewrite ?E1; done.
    + destruct (idx !! Z.to_nat (d2 - xo)) as [b|] eqn:E2; simpl;
        repeat case_decide; rewrite ?E2; done.
    + by rewrite !decide_False.
Qed.

(** X3. On the indexed stepper [reset(dim)] forgets the steps taken on its
    dimension: [step(dim, n)] or [step_back(dim, n)] followed by
    [reset(dim)] is [reset(dim)], and a second [reset(dim)] changes
    nothing. *)
Theorem indexed_reset_absorbs_steps {V} (x : XIndexedStepper.t V) (dim n : Z) :
  (XIndexedStepper.step dim n x ≫= XIndexedStepper.reset dim)
    = XIndexedStepper.reset dim x ∧
  (XIndexedStepper.step_back dim n x ≫= XIndexedStepper.reset dim)
    = XIndexedStepper.reset dim x ∧
  (XIndexedStepper.reset dim x ≫= XIndexedStepper.reset dim)
    = XIndexedStepper.reset dim x.
Proof.
  destruct x as [e idx xo].
  unfold XIndexedStepper.step, XIndexedStepper.step_back, XIndexedStepper.reset.
  simpl.
  repeat split; (case_decide; simpl; [|by rewrite decide_False]);
    (destruct (idx !! _) as [a|] eqn:Ha; simpl; [|done]);
    rewrite decide_True by done;
    rewrite list_lookup_insert_eq by (by eapply lookup_lt_Some); simpl;
    by rewrite list_insert_insert_eq.
Qed.

(** ** What the operations never change *)

Lemma xstepper_call_keeps {V} (c : call) (s s' : XStepper.t V) :
  run_call c s = Some s' →
  XStepper.p_c s' = XStepper.p_c s ∧ XStepper.m_offset s' = XStepper.m_offset s.
Proof.
  destruct c as [dim n|dim|]; simpl;
    unfold XStepper.step, XStepper.reset, XStepper.to_end;
    intros Hc; repeat case_decide; simplify_option_eq; done.
Qed.

Lemma xindexed_call_keeps {V} (c : call) (s s' : XIndexedStepper.t V) :
  run_call c s = Some s' →
  XIndexedStepper.p_e s' = XIndexedStepper.p_e s ∧
  XIndexedStepper.m_offset s' = XIndexedStepper.m_offset s ∧
  (length (XIndexedStepper.m_index s)
     = length (XIndexedStepper.shape (XIndexedStepper.p_e s)) →
   length (XIndexedStepper.m_index s')
     = length (XIndexedStepper.shape (XIndexedStepper.p_e s))).
Proof.
  destruct c as [dim n|dim|]; simpl;
    unfold XIndexedStepper.step, XIndexedStepper.reset, XIndexedStepper.to_end;
    intros Hc; repeat case_decide; simplify_option_eq;
    rewrite ?length_insert; done.
Qed.

(** X4. Whatever sequence of [step], [reset] and [to_end] calls a stepper
    receives, and [step_back] as well, it keeps its container (or
    expression) and its offset, so that [to_end] afterwards gives the same
    end state as [to_end] before; an indexed stepper whose index has the
    rank of its expression, as the constructor makes it, keeps an index of
    that rank. *)
Theorem steppers_keep_container_and_offset {V} (cs : list call)
    (s s' : XStepper.t V) (x x' : XIndexedStepper.t V) (dim n : Z) :
  (run_calls cs s = Some s' →
   XStepper.p_c s' = XStepper.p_c s ∧
   XStepper.m_offset s' = XStepper.m_offset s ∧
   XStepper.to_end s' = XStepper.to_end s) ∧
  (XStepper.step_back dim n s = Some s' →
   XStepper.p_c s' = XStepper.p_c s ∧
   XStepper.m_offset s' = XStepper.m_offset s) ∧
  (run_calls cs x = Some x' →
   XIndexedStepper.p_e x' = XIndexedStepper.p_e x ∧
   XIndexedStepper.m_offset x' = XIndexedStepper.m_offset x ∧
   XIndexedStepper.to_end x' = XIndexedStepper.to_end x ∧
   (length (XIndexedStepper.m_index x)
      = length (XIndexedStepper.shape (XIndexedStepper.p_e x)) →
    length (XIndexedStepper.m_index x')
      = length (XIndexedStepper.shape (XIndexedStepper.p_e x)))) ∧
  (XIndexedStepper.step_back dim n x = Some x' →
   XIndexedStepper.p_e x' = XIndexedStepper.p_e x ∧
   XIndexedStepper.m_offset x' = XIndexedStepper.m_offset x ∧
   length (XIndexedStepper.m_index x') = length (XIndexedStepper.m_index x)).
Proof.
  split; [|split; [|split]].
  - revert s. induction cs as [|c cs IH]; intros s; simpl.
    + by intros [= ->].
    + destruct (run_call c s) as [s1|] eqn:Hc; simpl; [|done].
      intros Hr. destruct (IH _ Hr) as (Hp & Ho & He).
      destruct (xstepper_call_keeps c s s1 Hc) as [Hp1 Ho1].
      split; [congruence|]. split; [congruence|].
      rewrite He. unfold XStepper.to_end. by rewrite Hp1, Ho1.
  - unfold XStepper.step_back. intros Hc.
    repeat case_decide; simplify_option_eq; done.
  - revert x. induction cs as [|c cs IH]; intros x; simpl.
    + by intros [= ->].
    + destruct (run_call c x) as [x1|] eqn:Hc; simpl; [|done].
      intros Hr. destruct (IH _ Hr) as (Hp & Ho & He & Hl).
      destruct (xindexed_call_keeps c x x1 Hc) as (Hp1 & Ho1 & Hl1).
      split; [congruence|]. split; [congruence|]. split.
      * rewrite He. unfold XIndexedStepper.to_end. by rewrite Hp1, Ho1.
      * intros Hlen. rewrite <- Hp1. apply Hl. rewrite Hp1. by apply Hl1.
  - unfold XIndexedStepper.step_back. intros Hc.
    repeat case_decide; simplify_option_eq; rewrite ?length_insert; done.
Qed.

Lemma steppers_keep_container_and_offset_witness :
  let c := XStepper.Container 0 [3; 1] [6; 2] 9 (λ p : Z, Some p) in
  let e := XIndexedStepper.Expression 0 [3; 3] (λ i : list Z, Some (dot i [3; 1])) in
  XStepper.to_end (XStepper.mk c 1 0) = XStepper.to_end (XStepper.mk c 0 0) ∧
  XStepper.m_offset (XStepper.mk c 5 1) = 1 ∧
  length (XIndexedStepper.m_index (XIndexedStepper.mk e [0; 1] 0)) = 2%nat ∧
  length (XIndexedStepper.m_index (XIndexedStepper.mk e [0; size_sub 0 1] 0))
    = 2%nat.
Proof.
  intros c e.
  pose proof (steppers_keep_container_and_offset [Step 1 1]
                (XStepper.mk c 0 0) (XStepper.mk c 1 0)
                (XIndexedStepper.mk e [0; 0] 0) (XIndexedStepper.mk e [0; 1] 0)
                1 1) as (HA & _ & HC & _).
  pose proof (steppers_keep_container_and_offset []
                (XStepper.mk c 8 1) (XStepper.mk c 5 1)
                (XIndexedStepper.mk e [0; 0] 0)
                (XIndexedStepper.mk e [0; size_sub 0 1] 0)
                1 1) as (_ & HB & _ & HD).
  split; [|split; [|split]].
  - assert (Hr : run_calls [Step 1 1] (XStepper.mk c 0 0)
                   = Some (XStepper.mk c 1 0)) by reflexivity.
    destruct (HA Hr) as (_ & _ & HE). exact HE.
  - assert (Hr : XStepper.step_back 1 1 (XStepper.mk c 8 1)
                   = Some (XStepper.mk c 5 1)) by reflexivity.
    destruct (HB Hr) as (_ & HO). exact HO.
  - assert (Hr : run_calls [Step 1 1] (XIndexedStepper.mk e [0; 0] 0)
                   = Some (XIndexedStepper.mk e [0; 1] 0)) by reflexivity.
    destruct (HC Hr) as (_ & _ & _ & HL). apply HL. reflexivity.
  - assert (Hr : XIndexedStepper.step_back 1 1 (XIndexedStepper.mk e [0; 0] 0)
                   = Some (XIndexedStepper.mk e [0; size_sub 0 1] 0))
      by reflexivity.
    destruct (HD Hr) as (_ & _ & HL). exact HL.
Defined.

(** ** Comparison *)

Lemma bool_decide_sym {A} `{EqDecision A} (x y : A) :
  bool_decide (x = y) = bool_decide (y = x).
Proof. apply bool_decide_ext. split; congruence. Qed.

Lemma xstepper_equal_spec {V} (a b : XStepper.t V) :
  XStepper.equal a b = true ↔
  XStepper.addr (XStepper.p_c a) = XStepper.addr (XStepper.p_c b) ∧
  XStepper.m_it a = XStepper.m_it b ∧
  XStepper.m_offset a = XStepper.m_offset b.
Proof.
  unfold XStepper.equal. rewrite !andb_true_iff, !bool_decide_eq_true.
  tauto.
Qed.

Lemma xindexed_equal_spec {V} (a b : XIndexedStepper.t V) :
  XIndexedStepper.equal a b = true ↔
  XIndexedStepper.addr (XIndexedStepper.p_e a)
    = XIndexedStepper.addr (XIndexedStepper.p_e b) ∧
  XIndexedStepper.m_index a = XIndexedStepper.m_index b ∧
  XIndexedStepper.m_offset a = XIndexedStepper.m_offset b.
Proof.
  unfold XIndexedStepper.equal. rewrite !andb_true_iff, !bool_decide_eq_true.
  tauto.
Qed.

(** X5. [operator==] is an equivalence on strided steppers, on indexed
    steppers and on the iterators over them: every object equals itself,
    the comparison does not depend on the order of its operands, and it is
    transitive; [operator!=] is false of an object and itself. *)
Theorem equality_is_an_equivalence {V}
    (s1 s2 s3 : XStepper.t V) (x1 x2 x3 : XIndexedStepper.t V)
    (a b c : XIterator.t (XStepper.t V))
    (i j k : XIterator.t (XIndexedStepper.t V)) :
  (XStepper.equal s1 s1 = true ∧ XStepper.not_equal s1 s1 = false ∧
   XStepper.equal s1 s2 = XStepper.equal s2 s1 ∧
   (XStepper.equal s1 s2 = true → XStepper.equal s2 s3 = true →
    XStepper.equal s1 s3 = true)) ∧
  (XIndexedStepper.equal x1 x1 = true ∧
   XIndexedStepper.not_equal x1 x1 = false ∧
   XIndexedStepper.equal x1 x2 = XIndexedStepper.equal x2 x1 ∧
   (XIndexedStepper.equal x1 x2 = true → XIndexedStepper.equal x2 x3 = true →
    XIndexedStepper.equal x1 x3 = true)) ∧
  (XIterator.equal a a = true ∧ XIterator.not_equal a a = false ∧
   XIterator.equal a b = XIterator.equal b a ∧
   (XIterator.equal a b = true → XIterator.equal b c = true →
    XIterator.equal a c = true)) ∧
  (XIterator.equal i i = true ∧ XIterator.not_equal i i = false ∧
   XIterator.equal i j = XIterator.equal j i ∧
   (XIterator.equal i j = true → XIterator.equal j k = true →
    XIterator.equal i k = true)).
Proof.
  assert (Hs : ∀ u v : XStepper.t V, XStepper.equal u v = XStepper.equal v u).
  { intros u v. unfold XStepper.equal.
    by rewrite (bool_decide_sym (XStepper.addr _)),
      (bool_decide_sym (XStepper.m_it u)),
      (bool_decide_sym (XStepper.m_offset u)). }
  assert (Hx : ∀ u v : XIndexedStepper.t V,
             XIndexedStepper.equal u v = XIndexedStepper.equal v u).
  { intros u v. unfold XIndexedStepper.equal.
    by rewrite (bool_decide_sym (XIndexedStepper.addr _)),
      (bool_decide_sym (XIndexedStepper.m_index u)),
      (bool_decide_sym (XIndexedStepper.m_offset u)). }
  assert (Ts : ∀ u v w : XStepper.t V,
             XStepper.equal u v = true → XStepper.equal v w = true →
             XStepper.equal u w = true).
  { intros u v w. rewrite !xstepper_equal_spec.
    intros (? & ? & ?) (? & ? & ?). repeat split; congruence. }
  assert (Tx : ∀ u v w : XIndexedStepper.t V,
             XIndexedStepper.equal u v = true →
             XIndexedStepper.equal v w = true →
             XIndexedStepper.equal u w = true).
  { intros u v w. rewrite !xindexed_equal_spec.
    intros (? & ? & ?) (? & ? & ?). repeat split; congruence. }
  split; [|split; [|split]].
  - unfold XStepper.not_equal. rewrite strided_equal_refl. eauto.
  - unfold XIndexedStepper.not_equal. rewrite indexed_equal_refl. eauto.
  - unfold XIterator.not_equal, XIterator.equal, stepper_equal. simpl.
    rewrite strided_equal_refl, bool_decide_eq_true_2 by done.
    split; [done|]. split; [done|]. split.
    + by rewrite Hs, (bool_decide_sym (XIterator.shape a)).
    + rewrite !andb_true_iff, !bool_decide_eq_true.
      intros [? ?] [? ?]. split; [eauto|congruence].
  - unfold XIterator.not_equal, XIterator.equal, stepper_equal. simpl.
    rewrite indexed_equal_refl, bool_decide_eq_true_2 by done.
    split; [done|]. split; [done|]. split.
    + by rewrite Hx, (bool_decide_sym (XIterator.shape i)).
    + rewrite !andb_true_iff, !bool_decide_eq_true.
      intros [? ?] [? ?]. split; [eauto|congruence].
Qed.

Lemma equality_is_an_equivalence_witness :
  let c := XStepper.Container 0 [3; 1] [6; 2] 9 (λ p : Z, Some p) in
  let e := XIndexedStepper.Expression 0 [3; 3] (λ i : list Z, Some (dot i [3; 1])) in
  let s := XStepper.mk c 4 0 in
  let x := XIndexedStepper.mk e [1; 1] 0 in
  XStepper.equal s s = true ∧ XIndexedStepper.equal x x = true ∧
  XIterator.equal (XIterator.mk s [0; 0] [3; 3]) (XIterator.mk s [1; 1] [3; 3])
    = true ∧
  XIterator.equal (XIterator.mk x [0; 0] [3; 3]) (XIterator.mk x [1; 1] [3; 3])
    = true.
Proof.
  intros c e s x.
  pose proof (equality_is_an_equivalence s s s x x x
    (XIterator.mk s [0; 0] [3; 3]) (XIterator.mk s [1; 0] [3; 3])
    (XIterator.mk s [1; 1] [3; 3])
    (XIterator.mk x [0; 0] [3; 3]) (XIterator.mk x [1; 0] [3; 3])
    (XIterator.mk x [1; 1] [3; 3]))
    as ((_ & _ & _ & HS) & (_ & _ & _ & HX) & (_ & _ & _ & HA) & (_ & _ & _ & HI)).
  split; [|split; [|split]].
  - apply HS; reflexivity.
  - apply HX; reflexivity.
  - apply HA; reflexivity.
  - apply HI; reflexivity.
Defined.

(** ** What an increment never changes *)

Lemma increment_loop_length {St} `{Stepper St} i :
  ∀ (st st' : St) index index' shape,
  increment_loop i st index shape = Some (st', index') →
  length index' = length index.
Proof.
  induction i as [|i IH]; intros st st' index index' shape; simpl.
  - by intros [= _ ->].
  - destruct (index !! i) as [x|]; simpl; [|done].
    destruct (shape !! i) as [s|]; simpl; [|done].
    repeat case_decide.
    + destruct (step _ 1 st) as [st1|]; simpl; [|done].
      intros [= _ <-]. by rewrite length_insert.
    + destruct (reset _ st) as [st1|]; simpl; [|done].
      intros Hl. rewrite (IH _ _ _ _ _ Hl). by rewrite !length_insert.
    + intros Hl. rewrite (IH _ _ _ _ _ Hl). by rewrite length_insert.
Qed.

(** X6. Increments, whatever their number and whatever the stepper, never
    change the shape of an iterator nor the size of its index vector: an
    iterator made by the constructor keeps an index of the rank of its
    shape, also at and past the end. *)
Theorem increments_keep_shape_and_rank {St} `{Stepper St}
    (n : nat) (it it' : XIterator.t St) (st : St) (sh : list Z) :
  (XIterator.incr_n n it = Some it' →
   XIterator.shape it' = XIterator.shape it ∧
   length (XIterator.m_index it') = length (XIterator.m_index it)) ∧
  (XIterator.incr_n n (XIterator.make st sh) = Some it' →
   length (XIterator.m_index it') = length (XIterator.shape it')).
Proof.
  assert (HA : ∀ n (it it' : XIterator.t St),
    XIterator.incr_n n it = Some it' →
    XIterator.shape it' = XIterator.shape it ∧
    length (XIterator.m_index it') = length (XIterator.m_index it)).
  { clear. intros n. induction n as [|n IH]; intros it it'; simpl.
    - by intros [= ->].
    - destruct (XIterator.incr it) as [it1|] eqn:Hi; simpl; [|done].
      intros Hn. destruct (IH _ _ Hn) as [Hs Hl].
      rewrite Hs, Hl, (incr_keeps_shape _ _ Hi). split; [done|].
      unfold XIterator.incr, increment_stepper in Hi.
      destruct (increment_loop _ _ _ _) as [[st1 idx1]|] eqn:Hloop;
        simplify_eq/=.
      by apply increment_loop_length in Hloop. }
  split; [apply HA|].
  intros Hn. destruct (HA _ _ _ Hn) as [Hs Hl].
  rewrite Hs, Hl. simpl. by rewrite length_replicate.
Qed.

Lemma increments_keep_shape_and_rank_witness :
  ∃ it', XIterator.incr_n 7 (XIterator.make ([] : list call) [2; 3]) = Some it' ∧
         XIterator.shape it' = [2; 3] ∧
         length (XIterator.m_index it') = 2%nat.
Proof.
  pose (it7 := XIterator.mk
            [Step 1 1; Step 1 1; Reset 1; Step 0 1; Step 1 1; Step 1 1;
             Reset 1; ToEnd; Step 1 1] [2; 1] [2; 3]).
  exists it7.
  assert (Hn : XIterator.incr_n 7 (XIterator.make ([] : list call) [2; 3])
               = Some it7) by (vm_compute; reflexivity).
  split; [exact Hn|].
  pose proof (increments_keep_shape_and_rank 7
                (XIterator.make ([] : list call) [2; 3]) it7 [] [2; 3])
    as [HA HB].
  split.
  - apply (HA Hn).
  - rewrite (HB Hn). reflexivity.
Defined.

(** ** When an increment stays within the vectors it reads *)

Lemma strided_loop_defined {V} (c : XStepper.container V) (o : Z) shape i :
  ∀ p index,
  (i ≤ length index)%nat → (length index ≤ length shape)%nat →
  Z.of_nat (length index) ≤ o + Z.of_nat (length (XStepper.strides c)) →
  (length (XStepper.strides c) ≤ length (XStepper.backstrides c))%nat →
  is_Some (increment_loop i (XStepper.mk c p o) index shape).
Proof.
  induction i as [|i IH]; intros p index Hi Hsh Hst Hbs; simpl; [done|].
  destruct (lookup_lt_is_Some_2 index i) as [x ->]; [lia|].
  destruct (lookup_lt_is_Some_2 shape i) as [s ->]; [lia|]. simpl.
  repeat case_decide.
  - unfold XStepper.step. simpl. case_decide; [|done].
    destruct (lookup_lt_is_Some_2 (XStepper.strides c)
                (Z.to_nat (Z.of_nat i - o))) as [st ->]; [lia|]. done.
  - unfold XStepper.reset. simpl. case_decide.
    + destruct (lookup_lt_is_Some_2 (XStepper.backstrides c)
                  (Z.to_nat (Z.of_nat i - o))) as [bs ->]; [lia|]. simpl.
      apply IH; rewrite ?length_insert; lia.
    + apply IH; rewrite ?length_insert; lia.
  - apply IH; rewrite ?length_insert; lia.
Qed.

Lemma indexed_loop_defined {V} (e : XIndexedStepper.expression V) (o : Z) shape i :
  ∀ xidx index,
  (i ≤ length index)%nat → (length index ≤ length shape)%nat →
  Z.of_nat (length index) ≤ o + Z.of_nat (length xidx) →
  is_Some (increment_loop i (XIndexedStepper.mk e xidx o) index shape).
Proof.
  induction i as [|i IH]; intros xidx index Hi Hsh Hx; simpl; [done|].
  destruct (lookup_lt_is_Some_2 index i) as [x ->]; [lia|].
  destruct (lookup_lt_is_Some_2 shape i) as [s ->]; [lia|]. simpl.
  repeat case_decide.
  - unfold XIndexedStepper.step. simpl. case_decide; [|done].
    destruct (lookup_lt_is_Some_2 xidx (Z.to_nat (Z.of_nat i - o)))
      as [a ->]; [lia|]. done.
  - unfold XIndexedStepper.reset. simpl. case_decide.
    + destruct (lookup_lt_is_Some_2 xidx (Z.to_nat (Z.of_nat i - o)))
        as [a ->]; [lia|]. simpl.
      apply IH; rewrite ?length_insert; lia.
    + apply IH; rewrite ?length_insert; lia.
  - apply IH; rewrite ?length_insert; lia.
Qed.

(** X7. The ranks an increment needs. [increment_stepper] reads
    [shape[index.size() - 1]] first: with a shape shorter than the index
    the read is out of range at once, for any stepper. With a shape at
    least as long as the index, the increment stays within every vector it
    reads when the rank of the index is at most the offset plus the rank
    of the container: for a strided stepper with a backstride for each
    stride, and for an indexed stepper by the size of its own index. *)
Theorem increment_rank_requirements {V} {St} `{Stepper St} (st : St)
    (c : XStepper.container V) (p o : Z)
    (e : XIndexedStepper.expression V) (xidx : list Z)
    (index shape : list Z) :
  ((length shape < length index)%nat →
   increment_stepper st index shape = None) ∧
  ((length index ≤ length shape)%nat →
   Z.of_nat (length index) ≤ o + Z.of_nat (length (XStepper.strides c)) →
   (length (XStepper.strides c) ≤ length (XStepper.backstrides c))%nat →
   is_Some (increment_stepper (XStepper.mk c p o) index shape)) ∧
  ((length index ≤ length shape)%nat →
   Z.of_nat (length index) ≤ o + Z.of_nat (length xidx) →
   is_Some (increment_stepper (XIndexedStepper.mk e xidx o) index shape)).
Proof.
  unfold increment_stepper. split; [|split].
  - intros Hlt. destruct (length index) as [|i] eqn:Hlen; [lia|]. simpl.
    destruct (lookup_lt_is_Some_2 index i) as [x ->]; [lia|]. simpl.
    by rewrite (lookup_ge_None_2 shape i) by lia.
  - intros. by apply strided_loop_defined.
  - intros. by apply indexed_loop_defined.
Qed.

Lemma increment_rank_requirements_witness :
  let c := XStepper.Container 0 [1] [2] 3 (λ p : Z, Some p) in
  let e := XIndexedStepper.Expression 0 [3] (λ i : list Z, Some (dot i [1])) in
  increment_stepper ([] : list call) [0; 0] [3] = None ∧
  is_Some (increment_stepper (XStepper.mk c 2 1) [0; 2] [2; 3]) ∧
  is_Some (increment_stepper (XIndexedStepper.mk e [2] 1) [0; 2] [2; 3]).
Proof.
  intros c e.
  pose proof (increment_rank_requirements ([] : list call) c 2 1 e [2]
                [0; 0] [3]) as (HA & _ & _).
  pose proof (increment_rank_requirements ([] : list call) c 2 1 e [2]
                [0; 2] [2; 3]) as (_ & HB & HC).
  split; [|split].
  - apply HA. simpl. lia.
  - apply HB; simpl; lia.
  - apply HC; simpl; lia.
Defined.

(** ** The order of a traversal and the element it designates *)

(** Distinct valid indices have distinct row-major ranks. *)
Lemma lin_inj i1 : ∀ i2 shape,
  valid i1 shape → valid i2 shape → lin i1 shape = lin i2 shape → i1 = i2.
Proof.
  induction i1 as [|x1 i1 IH]; intros i2 shape H1 H2 Hl.
  - apply Forall2_nil_inv_l in H1 as ->.
    by apply Forall2_nil_inv_r in H2 as ->.
  - apply Forall2_cons_inv_l in H1 as (s & sh & Hx1 & H1 & ->).
    apply Forall2_cons_inv_r in H2 as (x2 & r2 & Hx2 & H2 & ->).
    simpl in Hl.
    pose proof (lin_bounds _ _ H1) as B1.
    pose proof (lin_bounds _ _ H2) as B2.
    assert (x1 = x2) as -> by nia.
    f_equal. apply (IH r2 sh); [done..|lia].
Qed.

Lemma valid_extents_positive index shape :
  valid index shape → Forall (λ s, 0 < s) shape.
Proof. induction 1; constructor; [lia|done]. Qed.

(** A stepper that follows the index is, after [lin index] increments from
    the first index, at the valid index [index]. *)
Lemma reach_index {St} `{Stepper St} shape (pos : list Z → St) endst :
  Forall is_size shape →
  (∀ index (i : nat) x s,
     index !! i = Some x → shape !! i = Some s →
     step (Z.of_nat i) 1 (pos index) = Some (pos (<[i := size_add x 1]> index))) →
  (∀ index (i : nat) x s,
     index !! i = Some x → shape !! i = Some s → carries x s →
     reset (Z.of_nat i) (pos index) = Some (pos (<[i := 0]> index))) →
  (∀ index, to_end (pos index) = endst) →
  ∀ index, valid index shape →
  XIterator.incr_n (Z.to_nat (lin index shape))
    (at_index shape pos (replicate (length shape) 0))
  = Some (at_index shape pos index).
Proof.
  intros Hsz Hfs Hfr Hte index Hv.
  pose proof (lin_bounds _ _ Hv) as Hb.
  pose proof (valid_zeros _ (valid_extents_positive _ _ Hv)) as Hz.
  destruct (incr_n_at_rank shape pos endst Hsz Hfs Hfr Hte
              (Z.to_nat (lin index shape)) _ Hz)
    as (index' & Hn & Hv' & Hl).
  { rewrite lin_zeros. lia. }
  rewrite Hn. do 2 f_equal. apply (lin_inj _ _ shape); [done..|].
  rewrite Hl, lin_zeros. lia.
Qed.

(** X8. The order of a traversal over a strided stepper whose container is
    laid out for the shape. After [k] increments from the begin iterator,
    [k] below the number of elements, the index of the iterator is the
    valid index of row-major rank [k] and the cursor is the begin position
    plus the sum of [index[i] * strides[i - offset]] over the dimensions
    [i >= offset], in word arithmetic: the coordinates below the offset do
    not move the cursor. Conversely every valid index is reached, after as
    many increments as its row-major rank. *)
Theorem strided_traversal_order {V} (c : XStepper.container V) (b : Z)
    (o : nat) (shape index : list Z) (k : nat) :
  let first := XIterator.make (XStepper.mk c b (Z.of_nat o)) shape in
  Forall is_size shape → is_size b → strided_layout c o shape →
  (Forall (λ s, 0 < s) shape → Z.of_nat k < prod shape →
   ∃ idx,
     XIterator.incr_n k first
       = Some (XIterator.mk
                 (XStepper.mk c
                    (wrap (b + dot (drop o idx) (XStepper.strides c)))
                    (Z.of_nat o))
                 idx shape) ∧
     valid idx shape ∧ lin idx shape = Z.of_nat k) ∧
  (valid index shape →
   XIterator.incr_n (Z.to_nat (lin index shape)) first
     = Some (XIterator.mk
               (XStepper.mk c
                  (wrap (b + dot (drop o index) (XStepper.strides c)))
                  (Z.of_nat o))
               index shape)).
Proof.
  intros first Hsz Hb HL.
  assert (Hbegin : at_index shape (strided_pos c b o) (replicate (length shape) 0)
                   = first).
  { unfold at_index, first, XIterator.make, strided_pos.
    by rewrite drop_replicate, dot_zeros, Z.add_0_r, wrap_small. }
  split.
  - intros Hpos Hk.
    destruct (incr_n_at_rank shape (strided_pos c b o)
                (XStepper.mk c (XStepper.end_ c) (Z.of_nat o)) Hsz
                (λ index i x s, strided_follow_step c b o shape index i x s HL)
                (λ index i x s, strided_follow_reset c b o shape index i x s HL)
                (λ index, eq_refl) k _ (valid_zeros _ Hpos))
      as (idx & Hn & Hv & Hl).
    { rewrite lin_zeros. lia. }
    exists idx. rewrite Hbegin in Hn. rewrite lin_zeros in Hl.
    split; [exact Hn|]. split; [done|lia].
  - intros Hv. rewrite <- Hbegin.
    apply (reach_index shape (strided_pos c b o)
             (XStepper.mk c (XStepper.end_ c) (Z.of_nat o)) Hsz
             (λ index i x s, strided_follow_step c b o shape index i x s HL)
             (λ index i x s, strided_follow_reset c b o shape index i x s HL)
             (λ index, eq_refl) index Hv).
Qed.

Lemma strided_traversal_order_witness :
  let c := XStepper.Container 0 [1] [2] 3 (λ p : Z, Some p) in
  let first := XIterator.make (XStepper.mk c 0 1) [2; 3] in
  (∃ idx,
     XIterator.incr_n 4 first
       = Some (XIterator.mk
                 (XStepper.mk c (wrap (0 + dot (drop 1 idx) [1])) 1)
                 idx [2; 3]) ∧
     valid idx [2; 3] ∧ lin idx [2; 3] = 4) ∧
  XIterator.incr_n 4 first
    = Some (XIterator.mk (XStepper.mk c 1 1) [1; 1] [2; 3]).
Proof.
  intros c first.
  assert (Hsz : Forall is_size [2; 3]).
  { repeat constructor; vm_compute; discriminate. }
  assert (Hb : is_size 0) by (vm_compute; split; [discriminate|reflexivity]).
  assert (HL : strided_layout c 1 [2; 3]) by repeat constructor.
  pose proof (strided_traversal_order c 0 1 [2; 3] [1; 1] 4 Hsz Hb HL)
    as [HA HB].
  split.
  - apply HA; [repeat constructor|reflexivity].
  - apply HB. repeat constructor; lia.
Defined.

(** X9. The order of a traversal over an indexed stepper, for an
    expression whose rank is the rank of the iteration shape less the
    offset, whatever its extents. After [k] increments from the begin
    iterator, [k] below the number of elements of the iteration shape, the
    index of the iterator is the valid index of row-major rank [k], the
    index of the stepper is this index without its first [offset]
    coordinates, and the dereference is [element] at it. Conversely every
    valid index is reached, after as many increments as its row-major
    rank. *)
Theorem indexed_traversal_order {V} (e : XIndexedStepper.expression V)
    (o : nat) (shape index : list Z) (k : nat) :
  let first :=
    XIterator.make (XIndexedStepper.make e (Z.of_nat o) false) shape in
  Forall is_size shape →
  length (XIndexedStepper.shape e) = (length shape - o)%nat →
  (Forall (λ s, 0 < s) shape → Z.of_nat k < prod shape →
   ∃ idx it,
     XIterator.incr_n k first = Some it ∧
     XIterator.m_index it = idx ∧
     XIndexedStepper.m_index (XIterator.m_it it) = drop o idx ∧
     XIterator.deref XIndexedStepper.deref it
       = XIndexedStepper.element e (drop o idx) ∧
     valid idx shape ∧ lin idx shape = Z.of_nat k) ∧
  (valid index shape →
   XIterator.incr_n (Z.to_nat (lin index shape)) first
     = Some (XIterator.mk
               (XIndexedStepper.mk e (drop o index) (Z.of_nat o))
               index shape)).
Proof.
  intros first Hsz He.
  assert (Hbegin : at_index shape (indexed_pos e o) (replicate (length shape) 0)
                   = first).
  { unfold at_index, first, indexed_pos, XIterator.make, XIndexedStepper.make.
    by rewrite drop_replicate, He. }
  split.
  - intros Hpos Hk.
    destruct (incr_n_at_rank shape (indexed_pos e o)
                (XIndexedStepper.to_end (indexed_pos e o []))  Hsz
                (λ index i x s Hx _, indexed_follow_step e o index i x Hx)
                (λ index i x s Hx _ _, indexed_follow_reset e o index i x Hx)
                (λ index, eq_refl) k _ (valid_zeros _ Hpos))
      as (idx & Hn & Hv & Hl).
    { rewrite lin_zeros. lia. }
    exists idx, (at_index shape (indexed_pos e o) idx).
    rewrite Hbegin in Hn. rewrite lin_zeros in Hl.
    split; [exact Hn|]. repeat split; [done|lia].
  - intros Hv. rewrite <- Hbegin.
    apply (reach_index shape (indexed_pos e o)
             (XIndexedStepper.to_end (indexed_pos e o [])) Hsz
             (λ index i x s Hx _, indexed_follow_step e o index i x Hx)
             (λ index i x s Hx _ _, indexed_follow_reset e o index i x Hx)
             (λ index, eq_refl) index Hv).
Qed.

Lemma indexed_traversal_order_witness :
  let e := XIndexedStepper.Expression 0 [3] (λ i : list Z, Some (dot i [1])) in
  let first := XIterator.make (XIndexedStepper.make e 1 false) [2; 3] in
  (∃ idx it,
     XIterator.incr_n 4 first = Some it ∧
     XIterator.m_index it = idx ∧
     XIndexedStepper.m_index (XIterator.m_it it) = drop 1 idx ∧
     XIterator.deref XIndexedStepper.deref it
       = XIndexedStepper.element e (drop 1 idx) ∧
     valid idx [2; 3] ∧ lin idx [2; 3] = 4) ∧
  XIterator.incr_n 4 first
    = Some (XIterator.mk (XIndexedStepper.mk e [1] 1) [1; 1] [2; 3]).
Proof.
  intros e first.
  assert (Hsz : Forall is_size [2; 3]).
  { repeat constructor; vm_compute; discriminate. }
  pose proof (indexed_traversal_order e 1 [2; 3] [1; 1] 4 Hsz eq_refl)
    as [HA HB].
  split.
  - apply HA; [repeat constructor|reflexivity].
  - apply HB. repeat constructor; lia.
Defined.

(** ** Begin and end of the indexed stepper *)

Lemma zeros_eq_iff_all_zero (l : list Z) :
  bool_decide (replicate (length l) 0 = l)
  = forallb (λ s, bool_decide (s = 0)) l.
Proof.
  induction l as [|s l IH]; simpl; [done|].
  rewrite <- IH. destruct (decide (s = 0)) as [->|Hs].
  - rewrite (bool_decide_eq_true_2 (0 = 0)) by done. simpl.
    apply bool_decide_ext. split; [by intros [= ->]|by intros ->].
  - rewrite (bool_decide_eq_false_2 (s = 0)) by done. simpl.
    apply bool_decide_eq_false_2. intros [= ? _]. by apply Hs.
Qed.

(** X10. The begin-constructed and the end-constructed indexed steppers
    over an expression, and the iterators made of them, compare equal
    exactly when every extent of the expression is 0, which includes rank
    0: an expression with an extent 0 beside a non-zero one has no element
    and yet a begin that differs from its end. *)
Theorem indexed_begin_is_end_iff_all_extents_zero {V}
    (e : XIndexedStepper.expression V) (o : Z) (sh : list Z) :
  XIndexedStepper.equal (XIndexedStepper.make e o false)
    (XIndexedStepper.make e o true)
  = forallb (λ s, bool_decide (s = 0)) (XIndexedStepper.shape e) ∧
  XIterator.equal (XIterator.make (XIndexedStepper.make e o false) sh)
    (XIterator.make (XIndexedStepper.make e o true) sh)
  = forallb (λ s, bool_decide (s = 0)) (XIndexedStepper.shape e).
Proof.
  assert (HE : XIndexedStepper.equal (XIndexedStepper.make e o false)
                 (XIndexedStepper.make e o true)
               = forallb (λ s, bool_decide (s = 0)) (XIndexedStepper.shape e)).
  { unfold XIndexedStepper.equal. simpl.
    rewrite (bool_decide_eq_true_2 (XIndexedStepper.addr e = _)) by done.
    rewrite (bool_decide_eq_true_2 (o = o)) by done.
    rewrite zeros_eq_iff_all_zero. simpl. by rewrite andb_true_r. }
  split; [exact HE|].
  change (XIterator.equal _ _)
    with (XIndexedStepper.equal (XIndexedStepper.make e o false)
            (XIndexedStepper.make e o true) && bool_decide (sh = sh)).
  by rewrite HE, bool_decide_eq_true_2, andb_true_r.
Qed.

(** ** Steps of several units *)

Lemma xstepper_step_add {V} (s : XStepper.t V) (dim n m : Z) :
  (XStepper.step dim n s ≫= XStepper.step dim m) = XStepper.step dim (n + m) s ∧
  (XStepper.step_back dim n s ≫= XStepper.step_back dim m)
    = XStepper.step_back dim (n + m) s.
Proof.
  destruct s as [c p o]. unfold XStepper.step, XStepper.step_back. simpl.
  split; (case_decide; simpl; [|by rewrite decide_False]);
    (destruct (XStepper.strides c !! _) as [st|] eqn:Hst; simpl; [|done]);
    rewrite decide_True by done; rewrite Hst; simpl;
    do 2 f_equal; wrap_solve.
Qed.

Lemma xindexed_step_add {V} (x : XIndexedStepper.t V) (dim n m : Z) :
  (XIndexedStepper.step dim n x ≫= XIndexedStepper.step dim m)
    = XIndexedStepper.step dim (n + m) x ∧
  (XIndexedStepper.step_back dim n x ≫= XIndexedStepper.step_back dim m)
    = XIndexedStepper.step_back dim (n + m) x.
Proof.
  destruct x as [e idx xo].
  unfold XIndexedStepper.step, XIndexedStepper.step_back. simpl.
  split; (case_decide; simpl; [|by rewrite decide_False]);
    (destruct (idx !! _) as [a|] eqn:Ha; simpl; [|done]);
    rewrite decide_True by done;
    rewrite list_lookup_insert_eq by (by eapply lookup_lt_Some); simpl;
    rewrite list_insert_insert_eq; do 3 f_equal; wrap_solve.
Qed.

Lemma repeat_op_as_one {A} (f : Z → A → option A) (k : nat) :
  (∀ n m a, (f n a ≫= f m) = f (n + m) a) →
  ∀ a, repeat_op (f 1) (S k) a = f (Z.of_nat (S k)) a.
Proof.
  intros Hadd. induction k as [|k IH]; intros a.
  - change (Z.of_nat 1) with 1. simpl. by destruct (f 1 a).
  - change (repeat_op (f 1) (S (S k)) a) with (f 1 a ≫= repeat_op (f 1) (S k)).
    rewrite (Nat2Z.inj_succ (S k)). unfold Z.succ.
    rewrite Z.add_comm, <- Hadd.
    destruct (f 1 a) as [a'|]; simpl; [apply IH|done].
Qed.

(** X11. A step of [k >= 1] units is [k] steps of one unit: on both
    steppers [step(dim, k)] does what [k] successive calls of [step(dim)]
    do, and [step_back(dim, k)] what [k] calls of [step_back(dim)] do, in
    word arithmetic, the out-of-range case included. *)
Theorem step_of_k_is_k_steps {V} (s : XStepper.t V)
    (x : XIndexedStepper.t V) (dim : Z) (k : nat) :
  (1 ≤ k)%nat →
  repeat_op (XStepper.step dim 1) k s = XStepper.step dim (Z.of_nat k) s ∧
  repeat_op (XStepper.step_back dim 1) k s
    = XStepper.step_back dim (Z.of_nat k) s ∧
  repeat_op (XIndexedStepper.step dim 1) k x
    = XIndexedStepper.step dim (Z.of_nat k) x ∧
  repeat_op (XIndexedStepper.step_back dim 1) k x
    = XIndexedStepper.step_back dim (Z.of_nat k) x.
Proof.
  intros Hk. destruct k as [|k]; [lia|].
  split; [|split; [|split]].
  - apply (repeat_op_as_one (XStepper.step dim)).
    intros n m a. apply xstepper_step_add.
  - apply (repeat_op_as_one (XStepper.step_back dim)).
    intros n m a. apply xstepper_step_add.
  - apply (repeat_op_as_one (XIndexedStepper.step dim)).
    intros n m a. apply xindexed_step_add.
  - apply (repeat_op_as_one (XIndexedStepper.step_back dim)).
    intros n m a. apply xindexed_step_add.
Qed.

Lemma step_of_k_is_k_steps_witness :
  let c := XStepper.Container 0 [3; 1] [6; 2] 9 (λ p : Z, Some p) in
  let e := XIndexedStepper.Expression 0 [3; 3] (λ i : list Z, Some (dot i [3; 1])) in
  repeat_op (XStepper.step 1 1) 2 (XStepper.mk c 3 0)
    = Some (XStepper.mk c 5 0) ∧
  repeat_op (XIndexedStepper.step_back 0 1) 2 (XIndexedStepper.mk e [2; 1] 0)
    = Some (XIndexedStepper.mk e [0; 1] 0).
Proof.
  intros c e.
  assert (H2 : (1 ≤ 2)%nat) by lia.
  split.
  - pose proof (step_of_k_is_k_steps (XStepper.mk c 3 0)
                  (XIndexedStepper.mk e [2; 1] 0) 1 2 H2) as (HA & _).
    rewrite HA. reflexivity.
  - pose proof (step_of_k_is_k_steps (XStepper.mk c 3 0)
                  (XIndexedStepper.mk e [2; 1] 0) 0 2 H2) as (_ & _ & _ & HD).
    rewrite HD. reflexivity.
Defined.

(** ** Positions that broadcasting makes equal *)

(** X12. In a traversal with offset [o], the positions reached at two
    valid indices that agree from coordinate [o] on have the same stepper
    state and compare equal, though the indices differ: over a strided
    stepper laid out for the shape, and over an indexed stepper. Equality
    of iterators tells positions apart only up to the broadcast
    coordinates. *)
Theorem broadcast_positions_compare_equal {V}
    (c : XStepper.container V) (b : Z)
    (e : XIndexedStepper.expression V) (o : nat) (shape i1 i2 : list Z) :
  Forall is_size shape → valid i1 shape → valid i2 shape →
  drop o i1 = drop o i2 →
  (is_size b → strided_layout c o shape →
   let first := XIterator.make (XStepper.mk c b (Z.of_nat o)) shape in
   ∃ a1 a2,
     XIterator.incr_n (Z.to_nat (lin i1 shape)) first = Some a1 ∧
     XIterator.incr_n (Z.to_nat (lin i2 shape)) first = Some a2 ∧
     XIterator.m_index a1 = i1 ∧ XIterator.m_index a2 = i2 ∧
     XIterator.m_it a1 = XIterator.m_it a2 ∧
     XIterator.equal a1 a2 = true) ∧
  (length (XIndexedStepper.shape e) = (length shape - o)%nat →
   let first :=
     XIterator.make (XIndexedStepper.make e (Z.of_nat o) false) shape in
   ∃ a1 a2,
     XIterator.incr_n (Z.to_nat (lin i1 shape)) first = Some a1 ∧
     XIterator.incr_n (Z.to_nat (lin i2 shape)) first = Some a2 ∧
     XIterator.m_index a1 = i1 ∧ XIterator.m_index a2 = i2 ∧
     XIterator.m_it a1 = XIterator.m_it a2 ∧
     XIterator.equal a1 a2 = true).
Proof.
  intros Hsz H1 H2 Hd. split.
  - intros Hb HL first.
    assert (Hbegin : at_index shape (strided_pos c b o)
                       (replicate (length shape) 0) = first).
    { unfold at_index, first, XIterator.make, strided_pos.
      by rewrite drop_replicate, dot_zeros, Z.add_0_r, wrap_small. }
    pose proof (reach_index shape (strided_pos c b o)
             (XStepper.mk c (XStepper.end_ c) (Z.of_nat o)) Hsz
             (λ index i x s, strided_follow_step c b o shape index i x s HL)
             (λ index i x s, strided_follow_reset c b o shape index i x s HL)
             (λ index, eq_refl)) as HR.
    rewrite Hbegin in HR.
    exists (at_index shape (strided_pos c b o) i1),
      (at_index shape (strided_pos c b o) i2).
    split; [by apply HR|]. split; [by apply HR|].
    split; [done|]. split; [done|].
    assert (Hst : strided_pos c b o i1 = strided_pos c b o i2).
    { unfold strided_pos. by rewrite Hd. }
    split; [exact Hst|].
    unfold XIterator.equal, stepper_equal. simpl. rewrite Hst.
    by rewrite strided_equal_refl, bool_decide_eq_true_2.
  - intros He first.
    assert (Hbegin : at_index shape (indexed_pos e o)
                       (replicate (length shape) 0) = first).
    { unfold at_index, first, indexed_pos, XIterator.make, XIndexedStepper.make.
      by rewrite drop_replicate, He. }
    pose proof (reach_index shape (indexed_pos e o)
             (XIndexedStepper.to_end (indexed_pos e o [])) Hsz
             (λ index i x s Hx _, indexed_follow_step e o index i x Hx)
             (λ index i x s Hx _ _, indexed_follow_reset e o index i x Hx)
             (λ index, eq_refl)) as HR.
    rewrite Hbegin in HR.
    exists (at_index shape (indexed_pos e o) i1),
      (at_index shape (indexed_pos e o) i2).
    split; [by apply HR|]. split; [by apply HR|].
    split; [done|]. split; [done|].
    assert (Hst : indexed_pos e o i1 = indexed_pos e o i2).
    { unfold indexed_pos. by rewrite Hd. }
    split; [exact Hst|].
    unfold XIterator.equal, stepper_equal. simpl. rewrite Hst.
    by rewrite indexed_equal_refl, bool_decide_eq_true_2.
Qed.

Lemma broadcast_positions_compare_equal_witness :
  let c := XStepper.Container 0 [1] [2] 3 (λ p : Z, Some p) in
  let e := XIndexedStepper.Expression 0 [3] (λ i : list Z, Some (dot i [1])) in
  (let first := XIterator.make (XStepper.mk c 0 1) [2; 3] in
   ∃ a1 a2,
     XIterator.incr_n 1 first = Some a1 ∧ XIterator.incr_n 4 first = Some a2 ∧
     XIterator.m_index a1 = [0; 1] ∧ XIterator.m_index a2 = [1; 1] ∧
     XIterator.m_it a1 = XIterator.m_it a2 ∧
     XIterator.equal a1 a2 = true) ∧
  (let first := XIterator.make (XIndexedStepper.make e 1 false) [2; 3] in
   ∃ a1 a2,
     XIterator.incr_n 1 first = Some a1 ∧ XIterator.incr_n 4 first = Some a2 ∧
     XIterator.m_index a1 = [0; 1] ∧ XIterator.m_index a2 = [1; 1] ∧
     XIterator.m_it a1 = XIterator.m_it a2 ∧
     XIterator.equal a1 a2 = true).
Proof.
  intros c e.
  assert (Hsz : Forall is_size [2; 3]).
  { repeat constructor; vm_compute; discriminate. }
  assert (H1 : valid [0; 1] [2; 3]) by (repeat constructor; lia).
  assert (H2 : valid [1; 1] [2; 3]) by (repeat constructor; lia).
  pose proof (broadcast_positions_compare_equal c 0 e 1 [2; 3] [0; 1] [1; 1]
                Hsz H1 H2 eq_refl) as [HA HB].
  split.
  - apply HA; [vm_compute; split; [discriminate|reflexivity]|repeat constructor].
  - apply HB. reflexivity.
Defined.
